(** * team1-dashboard: the statistics collector [scripts/collect_stats.py]

    A shallow embedding of the collector script and the properties of the
    report it writes.  The script enumerates the public repositories of an
    organisation, fetches the commits of the last [WINDOW_DAYS] days of every
    repository that is neither archived nor disabled, counts them per
    repository and per author, and writes one JSON report with two
    leaderboards.

    Conventions of the embedding:
    - a Python value that is either [None] or a [str] is an [option string];
    - a [dict] whose iteration order is observed (the [defaultdict(int)]
      counters, which are iterated with [.items()] and sorted stably) is an
      association list in insertion order; [track_map], which is only ever
      looked up, is a [gmap];
    - the two remote endpoints are the fields of a [Provider]; the two
      pagination loops take a fuel argument and answer [Diverge] when it runs
      out;
    - exceptions are the [Raise] results of the [Result] monad. *)

From Stdlib Require Import ZArith Ascii String.
From stdpp Require Import base option list gmap strings.

Set Warnings "-clear-no-such-hyp".

Local Open Scope string_scope.
Local Open Scope list_scope.

(** ** Python built-ins used by the script *)

Module Py.

(** Truth value of a value that is [None] or a string. *)
Definition truthy (v : option string) : bool :=
  match v with
  | Some s => negb (String.eqb s "")
  | None => false
  end.

(** [a or b]. *)
Definition or (a b : option string) : option string :=
  if truthy a then a else b.

Definition lower_ascii (c : ascii) : ascii :=
  let n := nat_of_ascii c in
  if (65 <=? n)%nat && (n <=? 90)%nat then ascii_of_nat (n + 32) else c.

(** [s.lower()], on strings of ASCII characters (repository names are
    ASCII). *)
Fixpoint lower (s : string) : string :=
  match s with
  | EmptyString => EmptyString
  | String c s' => String (lower_ascii c) (lower s')
  end.

(** [s.startswith(p)]. *)
Definition startswith (s p : string) : bool := String.prefix p s.

(** The scan of [s.replace(old, new)] for a non-empty [old]: left to
    right, every occurrence that does not overlap an earlier one is
    replaced.  [skip] counts the characters of the current occurrence that
    are still to be passed over. *)
Fixpoint replace_scan (old new : string) (skip : nat) (s : string) : string :=
  match s with
  | EmptyString => EmptyString
  | String c s' =>
      match skip with
      | S k => replace_scan old new k s'
      | O =>
          if String.prefix old s
          then new +:+ replace_scan old new (String.length old - 1) s'
          else String c (replace_scan old new 0 s')
      end
  end.

(** [s.replace("", new)] puts [new] before every character and at the
    end. *)
Fixpoint replace_empty (new : string) (s : string) : string :=
  match s with
  | EmptyString => new
  | String c s' => new +:+ String c (replace_empty new s')
  end.

(** [s.replace(old, new)]. *)
Definition replace (s old new : string) : string :=
  if String.eqb old "" then replace_empty new s else replace_scan old new 0 s.

(** [s.split(sep)] for a separator of one character. *)
Fixpoint split (sep : ascii) (s : string) : list string :=
  match s with
  | EmptyString => [EmptyString]
  | String c s' =>
      if Ascii.eqb c sep then EmptyString :: split sep s'
      else match split sep s' with
           | h :: t => String c h :: t
           | [] => [String c EmptyString]
           end
  end.

(** [sorted(l, key=key, reverse=True)]: descending by [key]; the sort is
    stable and [reverse=True] keeps elements with equal keys in their
    original order.  An element is placed in front of the first element
    whose key is not greater than its own. *)
Section Sorted.
Context {A : Type} (key : A → nat).

Fixpoint insert_desc (x : A) (l : list A) : list A :=
  match l with
  | [] => [x]
  | y :: l' => if (key x <? key y)%nat then y :: insert_desc x l' else x :: y :: l'
  end.

Definition sorted_reverse (l : list A) : list A := foldr insert_desc [] l.
End Sorted.

End Py.

(** ** Exceptions and results *)

Inductive Exn : Type :=
| HTTPError (status : Z)        (* requests.HTTPError from raise_for_status *)
| RuntimeError (errors : string) (* raised by gql on an "errors" member *)
| ValueError.                    (* tuple unpacking of a split of the wrong length *)

Inductive Result (A : Type) : Type :=
| Ok (a : A)
| Raise (e : Exn)
| Diverge.
Arguments Ok {A} a.
Arguments Raise {A} e.
Arguments Diverge {A}.

#[global] Instance Result_ret : MRet Result := λ A a, Ok a.
#[global] Instance Result_bind : MBind Result := λ A B f m,
  match m with
  | Ok a => f a
  | Raise e => Raise e
  | Diverge => Diverge
  end.

(** [r.raise_for_status()] of the HTTP client: an [HTTPError] for a client
    error (4xx) or server error (5xx) status, nothing otherwise. *)
Definition raise_for_status (status : Z) : Result unit :=
  if (400 <=? status)%Z && (status <? 600)%Z then Raise (HTTPError status) else Ok tt.

(** ** Data *)

(** The insertion-ordered counters [defaultdict(int)]; a key is an author,
    which is a string or [None]. *)
Definition Counter : Type := list (option string * nat).

(** [d[k] += v] on a [defaultdict(int)]: an existing key keeps its place, a
    new one goes to the end. *)
Fixpoint dict_add (k : option string) (v : nat) (d : Counter) : Counter :=
  match d with
  | [] => [(k, v)]
  | (k', n) :: d' =>
      if decide (k = k') then (k', n + v) :: d' else (k', n) :: dict_add k v d'
  end.

(** A commit of the REST answer, as far as the script reads it. *)
Record Commit : Type := {
  (** [(c.get("author") or {}).get("login")] *)
  author_login : option string;
  (** the member ["name"] of [c["commit"]["author"]]: [None] when the member
      is absent, [Some None] when it is null *)
  commit_author_name : option (option string);
  (** [c["commit"]["author"]["date"]] *)
  commit_author_date : string
}.

(** A node of the GraphQL answer. *)
Record Node : Type := {
  name : string;
  nameWithOwner : string;
  isArchived : bool;
  isDisabled : bool;
  updatedAt : string;
  pushedAt : option string;
  repositoryTopics : list string
}.

Module Repo.
(** The dictionaries built by [list_org_repos]. *)
Record t : Type := {
  name : string;
  full : string;
  archived : bool;
  disabled : bool;
  updatedAt : string;
  pushedAt : option string;
  topics : list string
}.
End Repo.

Module Contributor.
(** [{"login": k, "commits": v}] *)
Record t : Type := { login : option string; commits : nat }.
End Contributor.

Module RepoEntry.
(** [{"repo": n, "commits": c}] *)
Record t : Type := { repo : string; commits : nat }.
End RepoEntry.

Module RepoInfo.
(** [repo_info] *)
Record t : Type := {
  name : string;
  full : string;
  topics : list string;
  track : option string;
  commits_count : nat;
  contributors : list Contributor.t;
  last_commit_at : option string
}.
End RepoInfo.

Record Leaderboards : Type := {
  top_repos_30d : list RepoEntry.t;
  top_contributors_30d : list Contributor.t
}.

(** [org_stats] *)
Record Report : Type := {
  org : string;
  generated_at : string;
  window_days : Z;
  repos_total : nat;
  repos : list RepoInfo.t;
  leaderboards : Leaderboards
}.

(** ** Configuration *)

(** The content of [track_map.yaml]: tracks in file order, each with its
    list of repository names, or with nothing ([None], read as the empty
    list by [repos or []]). *)
Definition TrackFile : Type := list (string * option (list string)).

(** The loop that fills [track_map]; [None] stands for a missing file, a
    missing yaml module or an empty document. *)
Definition load_track_map (file : option TrackFile) : gmap string string :=
  foldl (λ tm '(track, repos),
           foldl (λ tm r, <[Py.lower r := track]> tm) tm (default [] repos))
        ∅ (default [] file).

Record Config : Type := {
  ORG : string;
  WINDOW_DAYS : Z;
  track_map : gmap string string
}.

(** [datetime.utcnow()], as the two texts derived from it. *)
Record Clock : Type := {
  (** [now.isoformat()] *)
  now_isoformat : string;
  (** [since.replace(microsecond=0).isoformat()] *)
  since_isoformat : string
}.

(** ** The hosting provider *)

Record PageInfo : Type := { endCursor : option string; hasNextPage : bool }.

Record GqlResponse : Type := {
  gql_status_code : Z;
  (** the member ["errors"] of the answer, when there is one *)
  gql_errors : option string;
  (** [j["data"]["organization"]["repositories"]] *)
  nodes : list Node;
  pageInfo : PageInfo
}.

Record Response : Type := {
  status_code : Z;
  (** [r.json()] *)
  json : list Commit;
  (** [r.links.get("next", {}).get("url")] *)
  links_next_url : option string
}.

Record Provider : Type := {
  (** [session.post] of the repository query for an organisation and a
      cursor *)
  post_graphql : string → option string → GqlResponse;
  (** [session.get(url, params=params)]; the parameters are [since] and
      [per_page] *)
  get : string → option (string * Z) → Response
}.

(** ** Helpers of the script *)

(** [gql]: one page of the repository query. *)
Definition gql (P : Provider) (org_login : string) (cursor : option string)
  : Result GqlResponse :=
  let r := post_graphql P org_login cursor in
  _ ← raise_for_status (gql_status_code r);
  match gql_errors r with
  | Some errors => Raise (RuntimeError errors)
  | None => Ok r
  end.

Definition repo_of_node (n : Node) : Repo.t :=
  {| Repo.name := name n;
     Repo.full := nameWithOwner n;
     Repo.archived := isArchived n;
     Repo.disabled := isDisabled n;
     Repo.updatedAt := updatedAt n;
     Repo.pushedAt := pushedAt n;
     Repo.topics := repositoryTopics n |}.

(** The [while True] loop of [list_org_repos], from a cursor and the
    repositories gathered so far. *)
Fixpoint list_org_repos_from (P : Provider) (org_login : string) (fuel : nat)
    (cursor : option string) (repos : list Repo.t) : Result (list Repo.t) :=
  match fuel with
  | O => Diverge
  | S fuel' =>
      rs ← gql P org_login cursor;
      let repos' := repos ++ map repo_of_node (nodes rs) in
      if negb (hasNextPage (pageInfo rs)) then Ok repos'
      else list_org_repos_from P org_login fuel' (endCursor (pageInfo rs)) repos'
  end.

Definition list_org_repos (cfg : Config) (P : Provider) (fuel : nat)
  : Result (list Repo.t) :=
  list_org_repos_from P (ORG cfg) fuel None [].

(** The [while True] loop of [commit_activity]. *)
Fixpoint commit_pages (P : Provider) (fuel : nat) (url : string)
    (params : option (string * Z)) (commits : list Commit) : Result (list Commit) :=
  match fuel with
  | O => Diverge
  | S fuel' =>
      let r := get P url params in
      if (status_code r =? 409)%Z then Ok []
      else
        _ ← raise_for_status (status_code r);
        let commits' := commits ++ json r in
        let nxt := links_next_url r in
        if negb (Py.truthy nxt) then Ok commits'
        else commit_pages P fuel' (default "" nxt) None commits'
  end.

(** The first [url] of [commit_activity]. *)
Definition commits_url (owner name : string) : string :=
  "https://api.github.com/repos/" +:+ owner +:+ "/" +:+ name +:+ "/commits".

Definition commit_activity (P : Provider) (fuel : nat) (repo_full since_iso : string)
  : Result (list Commit) :=
  match Py.split "/" repo_full with
  | [owner; name] =>
      commit_pages P fuel (commits_url owner name) (Some (since_iso, 100%Z)) []
  | _ => Raise ValueError
  end.

Fixpoint infer_track (tm : gmap string string) (repo_name : string)
    (topics : list string) : option string :=
  match topics with
  | [] => tm !! Py.lower repo_name
  | t :: topics' =>
      if Py.startswith t "track-" then Some (Py.replace t "track-" "")
      else infer_track tm repo_name topics'
  end.

(** ** [main] *)

(** The author a commit is counted for. *)
Definition author_of (c : Commit) : option string :=
  Py.or (author_login c)
        (match commit_author_name c with
         | None => Some "unknown"
         | Some name => name
         end).

(** One round of the loop over the commits of a repository, on the pair of
    [by_author] and [last_commit_iso]. *)
Definition count_commit (st : Counter * option string) (c : Commit)
  : Counter * option string :=
  let '(by_author, last_commit_iso) := st in
  let dt := commit_author_date c in
  (dict_add (author_of c) 1 by_author,
   if negb (Py.truthy last_commit_iso)
      || String.ltb (default "" last_commit_iso) dt
   then Some dt else last_commit_iso).

Definition count_commits (commits : list Commit) : Counter * option string :=
  foldl count_commit ([], None) commits.

Definition contributor_of (kv : option string * nat) : Contributor.t :=
  {| Contributor.login := kv.1; Contributor.commits := kv.2 |}.

Definition repo_entry_of (nc : string * nat) : RepoEntry.t :=
  {| RepoEntry.repo := nc.1; RepoEntry.commits := nc.2 |}.

(** [repo_info] for a repository and its fetched commits. *)
Definition repo_info (cfg : Config) (r : Repo.t) (commits : list Commit) : RepoInfo.t :=
  let '(by_author, last_commit_iso) := count_commits commits in
  {| RepoInfo.name := Repo.name r;
     RepoInfo.full := Repo.full r;
     RepoInfo.topics := Repo.topics r;
     RepoInfo.track := infer_track (track_map cfg) (Repo.name r) (Repo.topics r);
     RepoInfo.commits_count := length commits;
     RepoInfo.contributors :=
       map contributor_of (Py.sorted_reverse snd by_author);
     RepoInfo.last_commit_at :=
       Py.or (Py.or last_commit_iso (Repo.pushedAt r)) (Some "N/A") |}.

(** What the loop over the repositories accumulates. *)
Record Totals : Type := {
  contributor_totals : Counter;
  repo_activity : list (string * nat);
  org_stats_repos : list RepoInfo.t
}.

Definition no_totals : Totals :=
  {| contributor_totals := []; repo_activity := []; org_stats_repos := [] |}.

(** [for k, v in by_author.items(): contributor_totals[k] += v] *)
Definition add_totals (by_author totals : Counter) : Counter :=
  foldl (λ totals kv, dict_add kv.1 kv.2 totals) totals by_author.

Definition skipped (r : Repo.t) : bool := Repo.archived r || Repo.disabled r.

(** The end of a round of the loop over the repositories: the summary of
    [r] is appended and its counts are added to the running totals. *)
Definition record_repo (cfg : Config) (r : Repo.t) (commits : list Commit)
    (acc : Totals) : Totals :=
  let info := repo_info cfg r commits in
  {| contributor_totals :=
       add_totals (count_commits commits).1 (contributor_totals acc);
     repo_activity :=
       repo_activity acc ++ [(RepoInfo.name info, RepoInfo.commits_count info)];
     org_stats_repos := org_stats_repos acc ++ [info] |}.

(** The loop [for r in repos] of [main]. *)
Fixpoint collect (cfg : Config) (P : Provider) (fuel : nat) (since_iso : string)
    (repos : list Repo.t) (acc : Totals) : Result Totals :=
  match repos with
  | [] => Ok acc
  | r :: repos' =>
      if skipped r then collect cfg P fuel since_iso repos' acc
      else
        commits ← commit_activity P fuel (Repo.full r) since_iso;
        collect cfg P fuel since_iso repos' (record_repo cfg r commits acc)
  end.

(** The leaderboards of the accumulated totals. *)
Definition leaderboards_of (acc : Totals) : Leaderboards :=
  {| top_repos_30d :=
       take 10 (Py.sorted_reverse RepoEntry.commits
                  (map repo_entry_of (repo_activity acc)));
     top_contributors_30d :=
       take 15 (Py.sorted_reverse Contributor.commits
                  (map contributor_of (contributor_totals acc))) |}.

Definition since_iso (clock : Clock) : string := since_isoformat clock +:+ "Z".

(** [org_stats] as it is when it is written: filled from the enumerated
    repositories and from what the loop accumulated. *)
Definition org_stats (cfg : Config) (clock : Clock) (repos : list Repo.t)
    (acc : Totals) : Report :=
  {| org := ORG cfg;
     generated_at := now_isoformat clock +:+ "Z";
     window_days := WINDOW_DAYS cfg;
     repos_total := length repos;
     repos := org_stats_repos acc;
     leaderboards := leaderboards_of acc |}.

(** [main], up to the report that is written to [public/stats.json]. *)
Definition main (cfg : Config) (clock : Clock) (P : Provider) (fuel : nat)
  : Result Report :=
  repos ← list_org_repos cfg P fuel;
  acc ← collect cfg P fuel (since_iso clock) repos no_totals;
  Ok (org_stats cfg clock repos acc).

(** ** Vocabulary of the properties *)

Local Close Scope string_scope.

(** Adjacent entries never increase in [key]. *)
Definition descending {A : Type} (key : A → nat) (l : list A) : Prop :=
  ∀ i x y, l !! i = Some x → l !! (S i) = Some y → key y ≤ key x.

(** The entries of [l] whose key is [c], in the order of [l]. *)
Definition with_key {A : Type} (key : A → nat) (c : nat) (l : list A) : list A :=
  filter (λ x, key x = c) l.

(** The logins of the contributor lists of the summaries of a report, and
    the number of different contributors of a run. *)
Definition all_logins (rep : Report) : list (option string) :=
  repos rep ≫= λ info, Contributor.login <$> RepoInfo.contributors info.

Definition distinct_contributors (rep : Report) : nat :=
  length (remove_dups (all_logins rep)).

(** The repositories whose commits are fetched, with the commits fetched
    for each, and the totals they add up to. *)
Definition Fetched : Type := list (Repo.t * list Commit).

Definition totals_of (cfg : Config) (fetched : Fetched) (acc : Totals) : Totals :=
  foldl (λ acc rc, record_repo cfg rc.1 rc.2 acc) acc fetched.

(** The repositories of an enumeration that are neither archived nor
    disabled, in order. *)
Definition active (repos : list Repo.t) : list Repo.t :=
  filter (λ r, ¬ skipped r) repos.

(** [fetched] pairs repositories with the commits the provider answers for
    them. *)
Definition fetched_from (P : Provider) (fuel : nat) (since_iso : string)
    (fetched : Fetched) : Prop :=
  Forall (λ rc, commit_activity P fuel (Repo.full rc.1) since_iso = Ok rc.2) fetched.

(** The pairs of a track and a repository name of a track file, in file
    order. *)
Definition track_entries (file : option TrackFile) : list (string * string) :=
  flat_map (λ '(track, repos), map (λ r, (track, r)) (default [] repos))
           (default [] file).

(** [old] occurs somewhere in [s]. *)
Fixpoint occurs (old s : string) : bool :=
  String.prefix old s
  || match s with
     | EmptyString => false
     | String _ s' => occurs old s'
     end.

(** ** Example runs *)

Module Examples.
Local Open Scope string_scope.

Definition cfg : Config :=
  {| ORG := "Avalanche-Team1-Africa";
     WINDOW_DAYS := 30;
     track_map := load_track_map (Some [("backend", Some ["Repo-Y"]); ("infra", None)]) |}.

Definition clock : Clock :=
  {| now_isoformat := "2025-09-04T12:00:00.000000";
     since_isoformat := "2025-08-05T12:00:00" |}.

Definition node (n : string) (archived : bool) (pushed : option string)
    (tags : list string) : Node :=
  {| name := n;
     nameWithOwner := "Avalanche-Team1-Africa/" +:+ n;
     isArchived := archived;
     isDisabled := false;
     updatedAt := "2025-09-01T08:00:00Z";
     pushedAt := pushed;
     repositoryTopics := tags |}.

Definition single_page (ns : list Node) : GqlResponse :=
  {| gql_status_code := 200;
     gql_errors := None;
     nodes := ns;
     pageInfo := {| endCursor := None; hasNextPage := false |} |}.

Definition commit_by (who date : string) : Commit :=
  {| author_login := Some who;
     commit_author_name := Some (Some who);
     commit_author_date := date |}.

Definition answer (status : Z) (cs : list Commit) : Response :=
  {| status_code := status; json := cs; links_next_url := None |}.

(** Repository A has five commits by alice and three by bob; B is empty
    and was never pushed to, the provider answers 409 for it; the archive
    is archived. *)
Definition nodes_AB : list Node :=
  [node "A" false (Some "2025-09-03T10:00:00Z") ["track-backend"];
   node "B" false None []].

Definition archive : Node := node "archive" true (Some "2024-01-01T00:00:00Z") [].

Definition commits_A : list Commit :=
  [commit_by "alice" "2025-09-01T10:00:00Z"; commit_by "bob" "2025-09-02T10:00:00Z";
   commit_by "alice" "2025-09-03T10:00:00Z"; commit_by "alice" "2025-08-20T10:00:00Z";
   commit_by "bob" "2025-08-21T10:00:00Z"; commit_by "alice" "2025-08-22T10:00:00Z";
   commit_by "bob" "2025-08-23T10:00:00Z"; commit_by "alice" "2025-08-24T10:00:00Z"].

Definition get_AB (url : string) (params : option (string * Z)) : Response :=
  if String.eqb url (commits_url "Avalanche-Team1-Africa" "A")
  then answer 200 commits_A
  else answer 409 [].

Definition provider_AB : Provider :=
  {| post_graphql := λ _ _, single_page nodes_AB; get := get_AB |}.

Definition provider_AB_archive : Provider :=
  {| post_graphql := λ _ _, single_page (archive :: nodes_AB); get := get_AB |}.

(** The same repositories on a provider whose commit endpoint fails for
    every repository but A. *)
Definition provider_failing : Provider :=
  {| post_graphql := λ _ _, single_page nodes_AB;
     get := λ url params,
       if String.eqb url (commits_url "Avalanche-Team1-Africa" "A")
       then answer 200 commits_A
       else answer 500 [] |}.

(** Twelve repositories, each with one commit by each of sixteen
    authors. *)
Definition sixteen : list string :=
  ["a01"; "a02"; "a03"; "a04"; "a05"; "a06"; "a07"; "a08";
   "a09"; "a10"; "a11"; "a12"; "a13"; "a14"; "a15"; "a16"].

Definition twelve : list string :=
  ["r01"; "r02"; "r03"; "r04"; "r05"; "r06";
   "r07"; "r08"; "r09"; "r10"; "r11"; "r12"].

Definition provider_many : Provider :=
  {| post_graphql := λ _ _,
       single_page (map (λ n, node n false None []) twelve);
     get := λ _ _,
       answer 200 (map (λ who, commit_by who "2025-09-01T10:00:00Z") sixteen) |}.

(** The report of a run, for the runs that end with one. *)
Definition report_of (run : Result Report) : Report :=
  match run with
  | Ok rep => rep
  | _ => org_stats cfg clock [] no_totals
  end.

Definition report_AB : Report :=
  Eval vm_compute in report_of (main cfg clock provider_AB 1).

Definition report_AB_archive : Report :=
  Eval vm_compute in report_of (main cfg clock provider_AB_archive 1).

Definition report_many : Report :=
  Eval vm_compute in report_of (main cfg clock provider_many 1).
End Examples.

(** ** The access token *)

(** [GITHUB_TOKEN], from [os.environ]: the value of [GH_TOKEN], or else
    that of the variable [GITHUB_TOKEN]. *)
Definition GITHUB_TOKEN (env : gmap string string) : option string :=
  Py.or (env !! "GH_TOKEN"%string) (env !! "GITHUB_TOKEN"%string).

(** [not GITHUB_TOKEN], the condition under which the script exits before
    any request. *)
Definition token_missing (env : gmap string string) : bool :=
  negb (Py.truthy (GITHUB_TOKEN env)).

(** ** Vocabulary of the further properties *)

(** The number of occurrences of a character in a text. *)
Fixpoint count_char (sep : ascii) (s : string) : nat :=
  match s with
  | EmptyString => 0
  | String c s' => (if Ascii.eqb c sep then 1 else 0) + count_char sep s'
  end.

(** The first URL that [commit_activity] asks for a well-formed full
    name. *)
Definition first_url (repo_full : string) : string :=
  ("https://api.github.com/repos/" +:+ repo_full +:+ "/commits")%string.

(** A commit page that is neither the conflict nor an error. *)
Definition page_ok (r : Response) : Prop :=
  status_code r ≠ 409%Z ∧ ¬ (400 ≤ status_code r < 600)%Z.

(** From the request [(url, params)] the provider answers the pages
    [pages], each of them good and with a next link that leads to the
    following request, and then the page [last]. *)
Fixpoint follows_links (P : Provider) (url : string)
    (params : option (string * Z)) (pages : list Response) (last : Response)
  : Prop :=
  match pages with
  | [] => get P url params = last
  | r :: pages' =>
      get P url params = r
      ∧ page_ok r
      ∧ Py.truthy (links_next_url r) = true
      ∧ follows_links P (default ""%string (links_next_url r)) None pages' last
  end.

(** An answer of the repository query that [gql] accepts. *)
Definition gql_ok (r : GqlResponse) : Prop :=
  ¬ (400 ≤ gql_status_code r < 600)%Z ∧ gql_errors r = None.

(** From [cursor] the provider answers the pages [pages], each accepted
    and announcing a next page, and then the page [last]. *)
Fixpoint follows_cursors (P : Provider) (org_login : string)
    (cursor : option string) (pages : list GqlResponse) (last : GqlResponse)
  : Prop :=
  match pages with
  | [] => post_graphql P org_login cursor = last
  | r :: pages' =>
      post_graphql P org_login cursor = r
      ∧ gql_ok r
      ∧ hasNextPage (pageInfo r) = true
      ∧ follows_cursors P org_login (endCursor (pageInfo r)) pages' last
  end.

(** What [gql] raises for an answer it does not accept: the HTTP error
    comes first. *)
Definition gql_failure (r : GqlResponse) : option Exn :=
  if (400 <=? gql_status_code r)%Z && (gql_status_code r <? 600)%Z
  then Some (HTTPError (gql_status_code r))
  else RuntimeError <$> gql_errors r.

(** The count that a counter holds for a key, 0 for a key it does not
    have. *)
Definition tally (k : option string) (d : Counter) : nat :=
  sum_list (snd <$> filter (λ kv, kv.1 = k) d).

(** The commits of a contributor list that go to one login. *)
Definition commits_of (who : option string) (cs : list Contributor.t) : nat :=
  sum_list (Contributor.commits <$> filter (λ c, Contributor.login c = who) cs).

(** The commits of a list that are counted for one author. *)
Definition commits_by (who : option string) (commits : list Commit) : list Commit :=
  filter (λ c, author_of c = who) commits.

(** The leaderboard entry of a summary. *)
Definition entry_of_info (info : RepoInfo.t) : RepoEntry.t :=
  {| RepoEntry.repo := RepoInfo.name info;
     RepoEntry.commits := RepoInfo.commits_count info |}.

(** [last] is the latest of the dates [seen]. *)
Definition latest_of (seen : list string) (last : option string) : Prop :=
  match last with
  | None => seen = []
  | Some m => m ∈ seen ∧ ∀ x, x ∈ seen → String.le x m
  end.

Module MoreExamples.
Local Open Scope string_scope.

(** Two pages of commits for repository A, the first with a next link. *)
Definition page1 : Response :=
  {| status_code := 200;
     json := [Examples.commit_by "alice" "2025-09-01T10:00:00Z"];
     links_next_url := Some "https://api.github.com/repositories/1/commits?page=2" |}.

Definition page2 : Response :=
  {| status_code := 200;
     json := [Examples.commit_by "bob" "2025-09-02T10:00:00Z"];
     links_next_url := None |}.

Definition get_paged (second : Response) (url : string)
    (params : option (string * Z)) : Response :=
  if String.eqb url (first_url "Avalanche-Team1-Africa/A") then page1 else second.

Definition provider_paged (second : Response) : Provider :=
  {| post_graphql := λ _ _, Examples.single_page Examples.nodes_AB;
     get := get_paged second |}.

(** A page whose next link is its own address. *)
Definition page_loop : Response :=
  {| status_code := 200;
     json := [Examples.commit_by "alice" "2025-09-01T10:00:00Z"];
     links_next_url := Some (first_url "Avalanche-Team1-Africa/A") |}.

Definition provider_loop : Provider :=
  {| post_graphql := λ _ _, Examples.single_page Examples.nodes_AB;
     get := λ _ _, page_loop |}.

(** An enumeration on two pages. *)
Definition gql_page1 : GqlResponse :=
  {| gql_status_code := 200;
     gql_errors := None;
     nodes := [Examples.archive];
     pageInfo := {| endCursor := Some "Y3Vyc29yOjE="; hasNextPage := true |} |}.

Definition post_two_pages (second : GqlResponse) (org_login : string)
    (cursor : option string) : GqlResponse :=
  match cursor with
  | None => gql_page1
  | Some _ => second
  end.

Definition provider_two_pages (second : GqlResponse) : Provider :=
  {| post_graphql := post_two_pages second; get := Examples.get_AB |}.

Definition gql_refused : GqlResponse :=
  {| gql_status_code := 200;
     gql_errors := Some "rate limited";
     nodes := [];
     pageInfo := {| endCursor := None; hasNextPage := false |} |}.



(** Only archived or disabled repositories. *)
Definition provider_retired : Provider :=
  {| post_graphql := λ _ _, Examples.single_page [Examples.archive];
     get := λ _ _, Examples.answer 500 [] |}.
End MoreExamples.

(** Closes the side conditions of the example runs by evaluation. *)
Ltac by_evaluation :=
  vm_compute;
  repeat match goal with
         | |- _ ∧ _ => split
         | |- _ = _ => reflexivity
         | |- _ → False => let H := fresh in intros H; (discriminate H || (destruct H as [H _]; by apply H))
         end.

(** * Properties *)

(** ** The stable descending sort *)

Section SortedFacts.
Context {A : Type} (key : A → nat).

Lemma insert_desc_perm x l : Py.insert_desc key x l ≡ₚ x :: l.
Proof.
  induction l as [|y l IH]; simpl; [done|].
  destruct (key x <? key y); [|done].
  rewrite IH. apply Permutation_swap.
Qed.

Lemma sorted_reverse_perm l : Py.sorted_reverse key l ≡ₚ l.
Proof.
  induction l as [|x l IH]; simpl; [done|].
  by rewrite insert_desc_perm, IH.
Qed.

Lemma sorted_reverse_length l : length (Py.sorted_reverse key l) = length l.
Proof. by rewrite sorted_reverse_perm. Qed.

Lemma descending_cons x l :
  descending key l → (∀ y, head l = Some y → (key y ≤ key x)%nat) → descending key (x :: l).
Proof.
  intros Hl Hx [|i] a b Ha Hb; simpl in *.
  - injection Ha as <-. apply Hx. by destruct l.
  - by apply (Hl i).
Qed.

Lemma descending_tail x l : descending key (x :: l) → descending key l.
Proof. intros H i a b Ha Hb. by apply (H (S i)). Qed.

Lemma descending_head x y l : descending key (x :: y :: l) → (key y ≤ key x)%nat.
Proof. intros H. by apply (H 0). Qed.

Lemma insert_desc_head x l y :
  head (Py.insert_desc key x l) = Some y → y = x ∨ head l = Some y.
Proof.
  destruct l as [|z l]; simpl.
  - intros [= <-]. by left.
  - destruct (key x <? key z); simpl; intros [= <-]; auto.
Qed.

Lemma insert_desc_descending x l :
  descending key l → descending key (Py.insert_desc key x l).
Proof.
  induction l as [|y l IH]; intros Hl; simpl.
  - intros [|i] a b; simpl; [|done]. by intros _ [=].
  - destruct (key x <? key y) eqn:Hlt.
    + apply Nat.ltb_lt in Hlt.
      apply descending_cons; [apply IH; by eapply descending_tail|].
      intros z Hz. apply insert_desc_head in Hz as [->|Hz]; [lia|].
      destruct l as [|w l]; [done|]. injection Hz as <-.
      by eapply descending_head.
    + apply Nat.ltb_ge in Hlt.
      apply descending_cons; [done|]. by intros z [= <-].
Qed.

Lemma sorted_reverse_descending l : descending key (Py.sorted_reverse key l).
Proof.
  induction l as [|x l IH]; simpl.
  - by intros i a b.
  - by apply insert_desc_descending.
Qed.

Lemma descending_take n l : descending key l → descending key (take n l).
Proof.
  intros Hl i x y Hx Hy.
  apply lookup_take_Some in Hx as [Hx _], Hy as [Hy _]. by apply (Hl i).
Qed.

(** Stability: the entries of one key keep their order. *)
Lemma filter_insert_desc c x l :
  with_key key c (Py.insert_desc key x l) = with_key key c (x :: l).
Proof.
  induction l as [|y l IH]; simpl; [done|].
  destruct (key x <? key y) eqn:Hlt; [|done].
  apply Nat.ltb_lt in Hlt. unfold with_key in *.
  rewrite !filter_cons in *.
  destruct (decide (key y = c)), (decide (key x = c)); try lia; by rewrite IH.
Qed.

Lemma filter_sorted_reverse c l :
  with_key key c (Py.sorted_reverse key l) = with_key key c l.
Proof.
  induction l as [|x l IH]; simpl; [done|].
  rewrite filter_insert_desc. unfold with_key in *. by rewrite !filter_cons, IH.
Qed.

Lemma with_key_take_prefix c n l :
  with_key key c (take n l) `prefix_of` with_key key c l.
Proof.
  exists (with_key key c (drop n l)). unfold with_key.
  by rewrite <-filter_app, take_drop.
Qed.
End SortedFacts.

(** ** The counters *)

Section CounterFacts.
Implicit Types (d : Counter) (k : option string) (v : nat).

Lemma dict_add_sum k v d :
  sum_list (dict_add k v d).*2 = sum_list d.*2 + v.
Proof.
  induction d as [|[k' n] d IH]; csimpl; [lia|].
  case_decide; csimpl; rewrite ?IH; lia.
Qed.

Lemma dict_add_keys k v d :
  (dict_add k v d).*1 = if decide (k ∈ d.*1) then d.*1 else d.*1 ++ [k].
Proof.
  induction d as [|[k' n] d IH]; csimpl; [done|].
  destruct (decide (k = k')) as [->|Hne]; csimpl.
  - by rewrite decide_True by set_solver.
  - rewrite IH. destruct (decide (k ∈ d.*1)).
    + by rewrite decide_True by set_solver.
    + by rewrite decide_False by set_solver.
Qed.

Lemma dict_add_elem k v d k' :
  k' ∈ (dict_add k v d).*1 ↔ k' = k ∨ k' ∈ d.*1.
Proof. rewrite dict_add_keys. case_decide; set_solver. Qed.

Lemma dict_add_NoDup k v d : NoDup d.*1 → NoDup (dict_add k v d).*1.
Proof.
  intros Hd. rewrite dict_add_keys. case_decide; [done|].
  apply NoDup_app. split_and!; [done|set_solver|apply NoDup_singleton].
Qed.

Lemma dict_add_pos k v d :
  0 < v → Forall (λ kv, 0 < kv.2) d → Forall (λ kv, 0 < kv.2) (dict_add k v d).
Proof.
  intros Hv. induction 1 as [|[k' n] d Hn Hd IH]; csimpl in *.
  - by repeat constructor.
  - case_decide; constructor; csimpl; auto with lia.
Qed.

(** The inner loop of [main], from any state. *)
Lemma count_commits_from_sum commits d last :
  sum_list (foldl count_commit (d, last) commits).1.*2
  = sum_list d.*2 + length commits.
Proof.
  revert d last. induction commits as [|c cs IH]; intros d last; csimpl; [lia|].
  rewrite IH, dict_add_sum. lia.
Qed.

Lemma count_commits_from_elem commits d last k :
  k ∈ (foldl count_commit (d, last) commits).1.*1
  ↔ k ∈ d.*1 ∨ k ∈ map author_of commits.
Proof.
  revert d last. induction commits as [|c cs IH]; intros d last; csimpl.
  - set_solver.
  - rewrite IH, dict_add_elem. set_solver.
Qed.

Lemma count_commits_from_NoDup commits d last :
  NoDup d.*1 → NoDup (foldl count_commit (d, last) commits).1.*1.
Proof.
  revert d last. induction commits as [|c cs IH]; intros d last Hd; csimpl; [done|].
  by apply IH, dict_add_NoDup.
Qed.

Lemma count_commits_from_pos commits d last :
  Forall (λ kv, 0 < kv.2) d →
  Forall (λ kv, 0 < kv.2) (foldl count_commit (d, last) commits).1.
Proof.
  revert d last. induction commits as [|c cs IH]; intros d last Hd; csimpl; [done|].
  apply IH, dict_add_pos; [lia|done].
Qed.

Lemma count_commits_sum commits :
  sum_list (count_commits commits).1.*2 = length commits.
Proof. unfold count_commits. by rewrite count_commits_from_sum. Qed.

Lemma count_commits_elem commits k :
  k ∈ (count_commits commits).1.*1 ↔ k ∈ map author_of commits.
Proof. unfold count_commits. rewrite count_commits_from_elem. set_solver. Qed.

Lemma count_commits_NoDup commits : NoDup (count_commits commits).1.*1.
Proof. apply count_commits_from_NoDup. constructor. Qed.

Lemma count_commits_pos commits :
  Forall (λ kv, 0 < kv.2) (count_commits commits).1.
Proof. by apply count_commits_from_pos. Qed.

(** Adding the counts of a repository to the running totals. *)
Lemma add_totals_sum by_author totals :
  sum_list (add_totals by_author totals).*2
  = sum_list totals.*2 + sum_list by_author.*2.
Proof.
  revert totals. induction by_author as [|[k v] b IH]; intros totals; csimpl; [lia|].
  unfold add_totals in *. csimpl. rewrite IH, dict_add_sum. lia.
Qed.

Lemma add_totals_elem by_author totals k :
  k ∈ (add_totals by_author totals).*1 ↔ k ∈ totals.*1 ∨ k ∈ by_author.*1.
Proof.
  revert totals. induction by_author as [|[k' v] b IH]; intros totals; csimpl.
  - set_solver.
  - unfold add_totals in *. csimpl. rewrite IH, dict_add_elem. set_solver.
Qed.

Lemma add_totals_NoDup by_author totals :
  NoDup totals.*1 → NoDup (add_totals by_author totals).*1.
Proof.
  revert totals. induction by_author as [|[k v] b IH]; intros totals Hd; [done|].
  unfold add_totals in *. csimpl. by apply IH, dict_add_NoDup.
Qed.

Lemma add_totals_pos by_author totals :
  Forall (λ kv, 0 < kv.2) by_author → Forall (λ kv, 0 < kv.2) totals →
  Forall (λ kv, 0 < kv.2) (add_totals by_author totals).
Proof.
  intros Hb. revert totals.
  induction Hb as [|[k v] b Hv Hb IH]; intros totals Hd; [done|].
  unfold add_totals in *. csimpl. by apply IH, dict_add_pos.
Qed.
End CounterFacts.

(** ** The loop over the repositories *)

Section CollectFacts.
Context (cfg : Config).

Lemma repo_info_name r cs : RepoInfo.name (repo_info cfg r cs) = Repo.name r.
Proof. unfold repo_info. by destruct (count_commits cs). Qed.

Lemma repo_info_full r cs : RepoInfo.full (repo_info cfg r cs) = Repo.full r.
Proof. unfold repo_info. by destruct (count_commits cs). Qed.

Lemma repo_info_commits_count r cs :
  RepoInfo.commits_count (repo_info cfg r cs) = length cs.
Proof. unfold repo_info. by destruct (count_commits cs). Qed.

Lemma repo_info_contributors r cs :
  RepoInfo.contributors (repo_info cfg r cs)
  = map contributor_of (Py.sorted_reverse snd (count_commits cs).1).
Proof. unfold repo_info. by destruct (count_commits cs). Qed.

Lemma repo_info_last_commit_at r cs :
  RepoInfo.last_commit_at (repo_info cfg r cs)
  = Py.or (Py.or (count_commits cs).2 (Repo.pushedAt r)) (Some "N/A"%string).
Proof. unfold repo_info. by destruct (count_commits cs). Qed.

Lemma totals_of_app f1 f2 acc :
  totals_of cfg (f1 ++ f2) acc = totals_of cfg f2 (totals_of cfg f1 acc).
Proof. apply foldl_app. Qed.

Lemma totals_of_repos fetched acc :
  org_stats_repos (totals_of cfg fetched acc)
  = org_stats_repos acc ++ map (λ rc, repo_info cfg rc.1 rc.2) fetched.
Proof.
  revert acc. induction fetched as [|[r cs] f IH]; intros acc; simpl.
  - by rewrite app_nil_r.
  - unfold totals_of in *. simpl. rewrite IH. simpl. by rewrite <-app_assoc.
Qed.

Lemma totals_of_activity fetched acc :
  repo_activity (totals_of cfg fetched acc)
  = repo_activity acc ++ map (λ rc, (Repo.name rc.1, length rc.2)) fetched.
Proof.
  revert acc. induction fetched as [|[r cs] f IH]; intros acc; simpl.
  - by rewrite app_nil_r.
  - unfold totals_of in *. simpl. rewrite IH. simpl.
    by rewrite repo_info_name, repo_info_commits_count, <-app_assoc.
Qed.

Lemma totals_of_sum fetched acc :
  sum_list (contributor_totals (totals_of cfg fetched acc)).*2
  = sum_list (contributor_totals acc).*2
    + sum_list (map (λ rc, length rc.2) fetched).
Proof.
  revert acc. induction fetched as [|[r cs] f IH]; intros acc; simpl; [lia|].
  unfold totals_of in *. simpl. rewrite IH. simpl.
  rewrite add_totals_sum, count_commits_sum. lia.
Qed.

Lemma totals_of_elem fetched acc k :
  k ∈ (contributor_totals (totals_of cfg fetched acc)).*1
  ↔ k ∈ (contributor_totals acc).*1
    ∨ ∃ rc, rc ∈ fetched ∧ k ∈ map author_of rc.2.
Proof.
  revert acc. induction fetched as [|[r cs] f IH]; intros acc; simpl.
  - set_solver.
  - unfold totals_of in *. simpl. rewrite IH. simpl.
    rewrite add_totals_elem, count_commits_elem. split.
    + intros [[?|?]|(rc & ? & ?)]; [by left|right..].
      * exists (r, cs). split; [left|done].
      * exists rc. split; [by right|done].
    + intros [?|(rc & [->|?]%elem_of_cons & ?)]; [by left; left|by left; right|].
      right. by exists rc.
Qed.

Lemma totals_of_NoDup fetched acc :
  NoDup (contributor_totals acc).*1 →
  NoDup (contributor_totals (totals_of cfg fetched acc)).*1.
Proof.
  revert acc. induction fetched as [|[r cs] f IH]; intros acc Hacc; [done|].
  unfold totals_of in *. simpl. by apply IH, add_totals_NoDup.
Qed.

Lemma totals_of_pos fetched acc :
  Forall (λ kv, 0 < kv.2) (contributor_totals acc) →
  Forall (λ kv, 0 < kv.2) (contributor_totals (totals_of cfg fetched acc)).
Proof.
  revert acc. induction fetched as [|[r cs] f IH]; intros acc Hacc; [done|].
  unfold totals_of in *. simpl.
  apply IH, add_totals_pos; [apply count_commits_pos|done].
Qed.

Context (P : Provider) (fuel : nat) (since : string).

(** The loop succeeds exactly when every fetch of an active repository
    does, and then its result is the total of what was fetched. *)
Lemma collect_Ok repos acc acc' :
  collect cfg P fuel since repos acc = Ok acc'
  ↔ ∃ fetched, fetched.*1 = active repos
               ∧ fetched_from P fuel since fetched
               ∧ acc' = totals_of cfg fetched acc.
Proof.
  unfold active, fetched_from.
  revert acc. induction repos as [|r repos IH]; intros acc; simpl.
  - split.
    + intros [= <-]. by exists [].
    + intros (f & Hf & _ & ->). by destruct f.
  - destruct (skipped r) eqn:Hr.
    + rewrite IH, filter_cons_False; [done|]. rewrite Hr. by intros [].
    + rewrite filter_cons_True by (rewrite Hr; by intros []).
      destruct (commit_activity P fuel (Repo.full r) since) as [cs| |] eqn:Hcs;
        simpl.
      * rewrite IH. split.
        -- intros (f & Hf & Hok & ->). exists ((r, cs) :: f).
           split_and!; [by rewrite fmap_cons, Hf|by constructor|done].
        -- intros ([|[r' cs'] f] & Hf & Hok & ->); [done|].
           injection Hf as -> Hf. apply Forall_cons in Hok as [Hrc Hok].
           simpl in Hrc. rewrite Hcs in Hrc. injection Hrc as <-. by exists f.
      * split; [done|].
        intros ([|[r' cs'] f] & Hf & Hok & ->); [done|].
        injection Hf as -> Hf. apply Forall_cons in Hok as [Hrc Hok].
        simpl in Hrc. by rewrite Hcs in Hrc.
      * split; [done|].
        intros ([|[r' cs'] f] & Hf & Hok & ->); [done|].
        injection Hf as -> Hf. apply Forall_cons in Hok as [Hrc Hok].
        simpl in Hrc. by rewrite Hcs in Hrc.
Qed.

Lemma collect_app l1 l2 acc :
  collect cfg P fuel since (l1 ++ l2) acc
  = collect cfg P fuel since l1 acc ≫= collect cfg P fuel since l2.
Proof.
  revert acc. induction l1 as [|r l1 IH]; intros acc; simpl; [done|].
  destruct (skipped r); [done|].
  destruct (commit_activity P fuel (Repo.full r) since); simpl; [|done..].
  apply IH.
Qed.
End CollectFacts.

(** ** [main] *)

Lemma main_Ok cfg clock P fuel rep :
  main cfg clock P fuel = Ok rep
  ↔ ∃ enumerated fetched,
      list_org_repos cfg P fuel = Ok enumerated
      ∧ fetched.*1 = active enumerated
      ∧ fetched_from P fuel (since_iso clock) fetched
      ∧ rep = org_stats cfg clock enumerated (totals_of cfg fetched no_totals).
Proof.
  unfold main. split.
  - destruct (list_org_repos cfg P fuel) as [enumerated| |]; simpl; [|done..].
    destruct (collect _ _ _ _ _ _) as [acc| |] eqn:Hacc; simpl; [|done..].
    intros [= <-]. apply collect_Ok in Hacc as (fetched & ? & ? & ->).
    by exists enumerated, fetched.
  - intros (enumerated & fetched & -> & Hf & Hok & ->). simpl.
    assert (collect cfg P fuel (since_iso clock) enumerated no_totals
            = Ok (totals_of cfg fetched no_totals)) as ->; [|done].
    apply collect_Ok. by exists fetched.
Qed.

(** What [main] answers is the report of what [collect] accumulated. *)
Lemma main_collect cfg clock P fuel enumerated acc rep :
  list_org_repos cfg P fuel = Ok enumerated →
  collect cfg P fuel (since_iso clock) enumerated no_totals = Ok acc →
  main cfg clock P fuel = Ok rep →
  rep = org_stats cfg clock enumerated acc.
Proof. unfold main. intros -> Hacc. simpl. rewrite Hacc. simpl. congruence. Qed.

Lemma sum_list_pos_nil (l : list nat) :
  Forall (λ n, 0 < n) l → sum_list l = 0 → l = [].
Proof. destruct 1; simpl; [done|lia]. Qed.

Lemma sum_list_perm (l1 l2 : list nat) : l1 ≡ₚ l2 → sum_list l1 = sum_list l2.
Proof. induction 1; simpl; lia. Qed.

Lemma contributor_of_commits (d : Counter) :
  Contributor.commits <$> (contributor_of <$> d) = d.*2.
Proof. rewrite <-list_fmap_compose. by apply list_fmap_ext. Qed.

Lemma contributor_of_login (d : Counter) :
  Contributor.login <$> (contributor_of <$> d) = d.*1.
Proof. rewrite <-list_fmap_compose. by apply list_fmap_ext. Qed.

(** ** The leaderboards *)

(** C5.  Whatever the provider answers, the repository leaderboard of the
    report has at most 10 entries and the contributor leaderboard at most
    15. *)
Theorem leaderboards_capped cfg clock P fuel rep :
  main cfg clock P fuel = Ok rep →
  length (top_repos_30d (leaderboards rep)) ≤ 10
  ∧ length (top_contributors_30d (leaderboards rep)) ≤ 15.
Proof.
  intros (enumerated & fetched & _ & _ & _ & ->)%main_Ok. simpl.
  rewrite !length_take. lia.
Qed.

Lemma leaderboards_capped_witness :
  length (top_repos_30d (leaderboards Examples.report_many)) ≤ 10
  ∧ length (top_contributors_30d (leaderboards Examples.report_many)) ≤ 15.
Proof.
  apply (leaderboards_capped Examples.cfg Examples.clock Examples.provider_many 1).
  vm_compute. reflexivity.
Defined.

(** C6.  Both leaderboards are in descending order of commit count:
    of two adjacent entries the first has at least the count of the second.
    The sort is stable: for every count, the entries of the leaderboard with
    that count are, in leaderboard order, the first of the entries with that
    count in encounter order, which is the order of [repo_activity] for the
    repositories and of [contributor_totals] for the contributors. *)
Theorem leaderboards_sorted_stable cfg clock P fuel enumerated acc rep :
  list_org_repos cfg P fuel = Ok enumerated →
  collect cfg P fuel (since_iso clock) enumerated no_totals = Ok acc →
  main cfg clock P fuel = Ok rep →
  descending RepoEntry.commits (top_repos_30d (leaderboards rep))
  ∧ descending Contributor.commits (top_contributors_30d (leaderboards rep))
  ∧ (∀ c, with_key RepoEntry.commits c (top_repos_30d (leaderboards rep))
          `prefix_of` with_key RepoEntry.commits c
                        (map repo_entry_of (repo_activity acc)))
  ∧ (∀ c, with_key Contributor.commits c (top_contributors_30d (leaderboards rep))
          `prefix_of` with_key Contributor.commits c
                        (map contributor_of (contributor_totals acc))).
Proof.
  intros Hrepos Hacc Hrep.
  rewrite (main_collect _ _ _ _ _ _ _ Hrepos Hacc Hrep). simpl. split_and!.
  - apply descending_take, sorted_reverse_descending.
  - apply descending_take, sorted_reverse_descending.
  - intros c.
    rewrite <-(filter_sorted_reverse _ c (map repo_entry_of (repo_activity acc))).
    apply with_key_take_prefix.
  - intros c.
    rewrite <-(filter_sorted_reverse _ c (map contributor_of (contributor_totals acc))).
    apply with_key_take_prefix.
Qed.

Lemma leaderboards_sorted_stable_witness :
  descending RepoEntry.commits (top_repos_30d (leaderboards Examples.report_many))
  ∧ with_key Contributor.commits 12
      (top_contributors_30d (leaderboards Examples.report_many))
    `prefix_of`
    with_key Contributor.commits 12
      (map contributor_of
         (contributor_totals
            (totals_of Examples.cfg
               (map (λ n, (repo_of_node (Examples.node n false None []),
                           json (get Examples.provider_many "" None)))
                    Examples.twelve)
               no_totals))).
Proof.
  pose proof (leaderboards_sorted_stable Examples.cfg Examples.clock
                Examples.provider_many 1
                (map (λ n, repo_of_node (Examples.node n false None []))
                     Examples.twelve)
                (totals_of Examples.cfg
                   (map (λ n, (repo_of_node (Examples.node n false None []),
                               json (get Examples.provider_many "" None)))
                        Examples.twelve)
                   no_totals)
                Examples.report_many) as H.
  destruct H as (H1 & _ & _ & H4);
    [vm_compute; reflexivity| vm_compute; reflexivity | vm_compute; reflexivity |].
  split; [exact H1|exact (H4 12)].
Defined.

(** ** The repository summaries *)

Lemma length_active (l : list Repo.t) :
  length (active l) + length (filter (λ r, skipped r) l) = length l.
Proof.
  unfold active. induction l as [|r l IH]; [done|].
  destruct (skipped r) eqn:Hr.
  - rewrite filter_cons_False, filter_cons_True by (rewrite Hr; naive_solver).
    simpl. lia.
  - rewrite filter_cons_True, filter_cons_False by (rewrite Hr; naive_solver).
    simpl. lia.
Qed.

(** C9.  [repos_total] counts every enumerated repository, the archived
    and the disabled ones too, while the list of summaries leaves those out:
    the total is the number of summaries plus the number of archived or
    disabled repositories, and exceeds the number of summaries as soon as
    one repository is archived or disabled. *)
Theorem repos_total_counts_all cfg clock P fuel enumerated rep :
  list_org_repos cfg P fuel = Ok enumerated →
  main cfg clock P fuel = Ok rep →
  repos_total rep = length enumerated
  ∧ repos_total rep
    = length (repos rep) + length (filter (λ r, skipped r) enumerated)
  ∧ (Exists (λ r, Repo.archived r = true ∨ Repo.disabled r = true) enumerated →
     length (repos rep) < repos_total rep).
Proof.
  intros Hrepos (enumerated' & fetched & Hrepos' & Hf & _ & ->)%main_Ok.
  assert (enumerated' = enumerated) as -> by congruence. simpl.
  rewrite totals_of_repos, length_app, length_map. simpl.
  rewrite <-(length_fmap fst fetched), Hf.
  pose proof (length_active enumerated) as Hlen.
  split_and!; [done|lia|].
  intros (r & Hr & Hs)%Exists_exists.
  assert (r ∈ filter (λ r, skipped r) enumerated) as Hin.
  { apply list_elem_of_filter. split; [|done]. unfold skipped.
    destruct Hs as [-> | ->]; [done|]. rewrite orb_true_r. done. }
  destruct (filter _ enumerated); [by apply elem_of_nil in Hin|simpl in *; lia].
Qed.

Lemma repos_total_counts_all_witness :
  repos_total Examples.report_AB_archive = 3
  ∧ length (repos Examples.report_AB_archive)
    < repos_total Examples.report_AB_archive.
Proof.
  destruct (repos_total_counts_all Examples.cfg Examples.clock
              Examples.provider_AB_archive 1
              (map repo_of_node (Examples.archive :: Examples.nodes_AB))
              Examples.report_AB_archive) as (Hall & _ & Hmore);
    [vm_compute; reflexivity | vm_compute; reflexivity |].
  split; [exact Hall|]. apply Hmore. constructor. left. reflexivity.
Defined.

(** C10.  In every summary of the report, [commits_count] is the sum of
    the commit counts of the summary's contributor list. *)
Theorem commits_count_is_contributor_sum cfg clock P fuel rep info :
  main cfg clock P fuel = Ok rep →
  info ∈ repos rep →
  RepoInfo.commits_count info
  = sum_list (Contributor.commits <$> RepoInfo.contributors info).
Proof.
  intros (enumerated & fetched & _ & _ & _ & ->)%main_Ok. simpl.
  rewrite totals_of_repos. simpl.
  intros ([r cs] & -> & _)%list_elem_of_fmap. simpl.
  rewrite repo_info_commits_count, repo_info_contributors, contributor_of_commits.
  rewrite <-count_commits_sum. apply sum_list_perm.
  by rewrite sorted_reverse_perm.
Qed.

Lemma commits_count_is_contributor_sum_witness :
  ∃ info, repos Examples.report_AB !! 0 = Some info
          ∧ RepoInfo.commits_count info = 8
          ∧ RepoInfo.commits_count info
            = sum_list (Contributor.commits <$> RepoInfo.contributors info).
Proof.
  eexists. split; [reflexivity|]. split; [reflexivity|].
  apply (commits_count_is_contributor_sum Examples.cfg Examples.clock
           Examples.provider_AB 1 Examples.report_AB).
  - vm_compute. reflexivity.
  - left.
Defined.

(** C4, as the script has it.  The summary of a repository for which no
    commit was fetched has [commits_count] 0, and its [last_commit_at] is
    the repository's last-pushed timestamp when that is a non-empty text,
    and the text [N/A] when the repository has none. *)
Theorem zero_commits_summary cfg clock P fuel enumerated rep i r info :
  list_org_repos cfg P fuel = Ok enumerated →
  main cfg clock P fuel = Ok rep →
  active enumerated !! i = Some r →
  repos rep !! i = Some info →
  commit_activity P fuel (Repo.full r) (since_iso clock) = Ok [] →
  RepoInfo.full info = Repo.full r
  ∧ RepoInfo.commits_count info = 0
  ∧ RepoInfo.last_commit_at info
    = if Py.truthy (Repo.pushedAt r) then Repo.pushedAt r else Some "N/A"%string.
Proof.
  intros Hrepos (enumerated' & fetched & Hrepos' & Hf & Hok & ->)%main_Ok.
  assert (enumerated' = enumerated) as -> by congruence. simpl.
  rewrite totals_of_repos. simpl. rewrite <-Hf, !list_lookup_fmap.
  destruct (fetched !! i) as [[r' cs]|] eqn:Hi; simpl; [|done].
  intros [= ->] [= <-] Hr.
  eapply Forall_lookup_1 in Hok; [|done]. simpl in Hok.
  assert (cs = []) as -> by congruence.
  rewrite repo_info_full, repo_info_commits_count, repo_info_last_commit_at.
  split_and!; [done..|]. unfold Py.or. simpl.
  by destruct (Py.truthy (Repo.pushedAt r)).
Qed.

Lemma zero_commits_summary_witness :
  ∃ info, repos Examples.report_AB !! 1 = Some info
          ∧ RepoInfo.commits_count info = 0
          ∧ RepoInfo.last_commit_at info = Some "N/A"%string.
Proof.
  eexists. split; [reflexivity|].
  destruct (zero_commits_summary Examples.cfg Examples.clock Examples.provider_AB 1
              (map repo_of_node Examples.nodes_AB) Examples.report_AB 1
              (repo_of_node (Examples.node "B" false None []))
              _ ltac:(vm_compute; reflexivity) ltac:(vm_compute; reflexivity)
              ltac:(vm_compute; reflexivity) eq_refl
              ltac:(vm_compute; reflexivity)) as (_ & H0 & Hlast).
  split; [exact H0|exact Hlast].
Defined.

(** C4 as it is worded fails for a repository without a last-pushed
    timestamp: repository B of the example run has none, no commit is
    fetched for it, and its summary carries the text [N/A]. *)
Lemma zero_commits_never_pushed :
  let r := repo_of_node (Examples.node "B" false None []) in
  list_org_repos Examples.cfg Examples.provider_AB 1
  = Ok (map repo_of_node Examples.nodes_AB)
  ∧ active (map repo_of_node Examples.nodes_AB) !! 1 = Some r
  ∧ commit_activity Examples.provider_AB 1 (Repo.full r)
      (since_iso Examples.clock) = Ok []
  ∧ ∃ rep info,
      main Examples.cfg Examples.clock Examples.provider_AB 1 = Ok rep
      ∧ repos rep !! 1 = Some info
      ∧ RepoInfo.full info = Repo.full r
      ∧ RepoInfo.commits_count info = 0
      ∧ RepoInfo.last_commit_at info ≠ Repo.pushedAt r.
Proof.
  split_and!; [vm_compute; reflexivity..|].
  exists Examples.report_AB. eexists.
  split_and!; [vm_compute; reflexivity|reflexivity|reflexivity|reflexivity|].
  discriminate.
Qed.


(** ** The contributor totals *)

(** The logins of the summaries are the keys of the running totals. *)
Lemma all_logins_totals cfg clock enumerated fetched k :
  k ∈ all_logins (org_stats cfg clock enumerated (totals_of cfg fetched no_totals))
  ↔ k ∈ (contributor_totals (totals_of cfg fetched no_totals)).*1.
Proof.
  unfold all_logins. simpl. rewrite totals_of_repos, totals_of_elem. simpl.
  rewrite list_elem_of_bind. split.
  - intros (info & Hk & ([r cs] & -> & Hrc)%list_elem_of_fmap).
    right. exists (r, cs). split; [done|]. simpl in *.
    rewrite repo_info_contributors, contributor_of_login in Hk.
    apply count_commits_elem.
    by rewrite <-(sorted_reverse_perm snd (count_commits cs).1).
  - intros [[]%elem_of_nil|([r cs] & Hrc & Hk)].
    exists (repo_info cfg r cs). split.
    + rewrite repo_info_contributors, contributor_of_login.
      rewrite (sorted_reverse_perm snd (count_commits cs).1).
      by apply count_commits_elem.
    + apply list_elem_of_fmap. by exists (r, cs).
Qed.

Lemma distinct_contributors_totals cfg clock enumerated fetched :
  distinct_contributors
    (org_stats cfg clock enumerated (totals_of cfg fetched no_totals))
  = length (contributor_totals (totals_of cfg fetched no_totals)).
Proof.
  unfold distinct_contributors.
  rewrite <-(length_fmap fst (contributor_totals _)).
  apply Permutation_length, NoDup_Permutation.
  - apply NoDup_remove_dups.
  - apply totals_of_NoDup. constructor.
  - intros k. rewrite elem_of_remove_dups. apply all_logins_totals.
Qed.

Lemma commits_count_total cfg fetched :
  sum_list (RepoInfo.commits_count
              <$> org_stats_repos (totals_of cfg fetched no_totals))
  = sum_list (contributor_totals (totals_of cfg fetched no_totals)).*2.
Proof.
  rewrite totals_of_repos, totals_of_sum. simpl.
  f_equal. rewrite <-list_fmap_compose. apply list_fmap_ext.
  intros _ [r cs] _. simpl. apply repo_info_commits_count.
Qed.

(** C1, as the script has it.  The commit counts of the contributor
    leaderboard add up to at most the sum of the [commits_count] of the
    summaries, and to exactly that sum when, and only when, the run has at
    most 15 different contributors: the leaderboard keeps the first 15
    entries, and every contributor has at least one commit. *)
Theorem contributor_leaderboard_total cfg clock P fuel rep :
  main cfg clock P fuel = Ok rep →
  sum_list (Contributor.commits <$> top_contributors_30d (leaderboards rep))
  ≤ sum_list (RepoInfo.commits_count <$> repos rep)
  ∧ (sum_list (Contributor.commits <$> top_contributors_30d (leaderboards rep))
     = sum_list (RepoInfo.commits_count <$> repos rep)
     ↔ distinct_contributors rep ≤ 15).
Proof.
  intros (enumerated & fetched & _ & _ & _ & ->)%main_Ok.
  rewrite distinct_contributors_totals. simpl. rewrite commits_count_total.
  set (ct := contributor_totals (totals_of cfg fetched no_totals)).
  set (L := Py.sorted_reverse Contributor.commits (map contributor_of ct)).
  assert (sum_list ct.*2
          = sum_list (Contributor.commits <$> take 15 L)
            + sum_list (Contributor.commits <$> drop 15 L)) as Hsum.
  { rewrite <-sum_list_with_app, <-fmap_app, take_drop.
    rewrite <-contributor_of_commits. apply sum_list_perm.
    unfold L. by rewrite sorted_reverse_perm. }
  assert (Forall (λ n, 0 < n) (Contributor.commits <$> drop 15 L)) as Hpos.
  { apply Forall_fmap, Forall_drop. unfold L.
    rewrite sorted_reverse_perm. apply Forall_fmap.
    apply (totals_of_pos cfg fetched no_totals). constructor. }
  assert (length L = length ct) as Hlen.
  { unfold L. by rewrite sorted_reverse_length, length_map. }
  split; [lia|]. rewrite <-Hlen. split.
  - intros Heq. apply drop_nil_inv.
    apply (fmap_nil_inv Contributor.commits), sum_list_pos_nil; [done|lia].
  - intros Hle. rewrite (drop_ge L 15) in Hsum by done. simpl in Hsum. lia.
Qed.

Lemma contributor_leaderboard_total_witness :
  sum_list (Contributor.commits
              <$> top_contributors_30d (leaderboards Examples.report_AB)) = 8
  ∧ sum_list (RepoInfo.commits_count <$> repos Examples.report_AB) = 8.
Proof.
  destruct (contributor_leaderboard_total Examples.cfg Examples.clock
              Examples.provider_AB 1 Examples.report_AB
              ltac:(vm_compute; reflexivity)) as [_ Heq].
  split; [|reflexivity]. rewrite (proj2 Heq); [reflexivity|].
  vm_compute. lia.
Defined.

(** C1 as it is worded fails for a run with more than 15 contributors: in
    the run over twelve repositories with one commit by each of sixteen
    authors the leaderboard adds up to 180 commits and the summaries to
    192. *)
Lemma contributor_leaderboard_truncated :
  main Examples.cfg Examples.clock Examples.provider_many 1
  = Ok Examples.report_many
  ∧ sum_list (Contributor.commits
                <$> top_contributors_30d (leaderboards Examples.report_many))
    = 180
  ∧ sum_list (RepoInfo.commits_count <$> repos Examples.report_many) = 192.
Proof. split_and!; vm_compute; reflexivity. Qed.

(** ** The track classifier *)

Section TrackFacts.
Local Open Scope string_scope.
Local Open Scope list_scope.

(** A text in which [old] does not occur is left as it is. *)
Lemma replace_scan_no_occurrence old new s :
  occurs old s = false → Py.replace_scan old new 0 s = s.
Proof.
  induction s as [|c s IH]; [done|].
  intros [Hp Hs]%orb_false_elim. cbn [Py.replace_scan].
  rewrite Hp. f_equal. by apply IH.
Qed.

Lemma append_cons c p s : String c p +:+ s = String c (p +:+ s).
Proof. reflexivity. Qed.

Lemma prefix_append old s : String.prefix old (old +:+ s) = true.
Proof.
  induction old as [|c old IH]; [by destruct s|].
  rewrite append_cons. cbn [String.prefix]. by destruct (ascii_dec c c).
Qed.

Lemma replace_scan_skip old new p s :
  Py.replace_scan old new (String.length p) (p +:+ s)
  = Py.replace_scan old new 0 s.
Proof.
  induction p as [|c p IH]; [by destruct s|].
  rewrite append_cons. by cbn [String.length Py.replace_scan].
Qed.

(** At an occurrence, the replacement goes on behind it. *)
Lemma replace_scan_occurrence c old new s :
  Py.replace_scan (String c old) new 0 (String c old +:+ s)
  = new +:+ Py.replace_scan (String c old) new 0 s.
Proof.
  pose proof (prefix_append (String c old) s) as Hp.
  rewrite append_cons in *. cbn [Py.replace_scan]. rewrite Hp.
  cbn [String.length].
  replace (S (String.length old) - 1) with (String.length old) by lia.
  by rewrite replace_scan_skip.
Qed.

Lemma replace_track_prefix suffix :
  Py.replace ("track-" +:+ suffix) "track-" ""
  = Py.replace suffix "track-" "".
Proof. unfold Py.replace. cbn [String.eqb]. by rewrite replace_scan_occurrence. Qed.

(** The topics before the first one with the prefix are passed over. *)
Lemma infer_track_skip tm repo_name before topics :
  Forall (λ t, Py.startswith t "track-" = false) before →
  infer_track tm repo_name (before ++ topics) = infer_track tm repo_name topics.
Proof.
  induction 1 as [|t before Ht _ IH]; [done|].
  cbn [app infer_track]. by rewrite Ht.
Qed.

(** What [infer_track] answers at the first topic with the prefix: the
    rest of the topic with every further occurrence of the prefix removed
    as well, which is the rest itself when the prefix does not occur in
    it. *)
Lemma infer_track_first_prefixed tm repo_name before suffix after :
  Forall (λ t, Py.startswith t "track-" = false) before →
  infer_track tm repo_name (before ++ ("track-" +:+ suffix) :: after)
  = Some (Py.replace suffix "track-" "")
  ∧ (occurs "track-" suffix = false →
     infer_track tm repo_name (before ++ ("track-" +:+ suffix) :: after)
     = Some suffix).
Proof.
  intros Hbefore. rewrite infer_track_skip by done.
  cbn [infer_track]. unfold Py.startswith.
  rewrite prefix_append, replace_track_prefix.
  split; [done|]. intros Hno. unfold Py.replace. cbn [String.eqb].
  by rewrite replace_scan_no_occurrence.
Qed.

(** C2 fails on the code as written.  For the topic
    [track-fast-track-x] the track is [fast-x]: [replace] removes the
    second occurrence of the prefix too, where removing the leading prefix
    gives [fast-track-x]. *)
Theorem infer_track_inner_prefix tm :
  Py.startswith "track-fast-track-x" "track-" = true
  ∧ "track-fast-track-x" = "track-" +:+ "fast-track-x"
  ∧ infer_track tm "repo-x" ["track-fast-track-x"] = Some "fast-x"
  ∧ infer_track tm "repo-x" ["track-fast-track-x"] ≠ Some "fast-track-x".
Proof. split_and!; [reflexivity..|discriminate]. Qed.

(** The example of the specification. *)
Lemma infer_track_backend tm :
  infer_track tm "repo-x" ["track-backend"] = Some "backend".
Proof. reflexivity. Qed.

(** Filling [track_map] from the entries of the file. *)
Lemma load_track_map_entries file :
  load_track_map file
  = foldl (λ tm e, <[Py.lower e.2 := e.1]> tm) ∅ (track_entries file).
Proof.
  unfold load_track_map, track_entries.
  generalize (∅ : gmap string string).
  induction (default [] file) as [|[track repos] l IH]; intros tm; [done|].
  cbn [foldl flat_map]. rewrite foldl_app, IH. f_equal.
  generalize tm. induction (default [] repos) as [|r rs IHr]; intros tm'; [done|].
  cbn [foldl map]. by rewrite IHr.
Qed.

Lemma foldl_insert_other (entries : list (string * string))
    (tm : gmap string string) (k : string) :
  Forall (λ e, Py.lower e.2 ≠ k) entries →
  foldl (λ tm e, <[Py.lower e.2 := e.1]> tm) tm entries !! k = tm !! k.
Proof.
  intros H. revert tm. induction H as [|e l He _ IH]; intros tm; [done|].
  cbn [foldl]. by rewrite IH, lookup_insert_ne.
Qed.

(** C3.  When no topic starts with the prefix, the track is looked up
    under the lower-cased repository name in the static mapping, whose keys
    are the lower-cased names of the file.  A name that the file lists in
    any case is therefore found, with the track of its last entry; a name
    that the file does not list in any case has no track ([None]). *)
Theorem infer_track_fallback file repo_name topics :
  Forall (λ t, Py.startswith t "track-" = false) topics →
  infer_track (load_track_map file) repo_name topics
  = load_track_map file !! Py.lower repo_name
  ∧ (∀ before track r after,
       track_entries file = before ++ (track, r) :: after →
       Py.lower r = Py.lower repo_name →
       Forall (λ e, Py.lower e.2 ≠ Py.lower repo_name) after →
       infer_track (load_track_map file) repo_name topics = Some track)
  ∧ (Forall (λ e, Py.lower e.2 ≠ Py.lower repo_name) (track_entries file) →
     infer_track (load_track_map file) repo_name topics = None).
Proof.
  intros Htopics.
  assert (infer_track (load_track_map file) repo_name topics
          = load_track_map file !! Py.lower repo_name) as ->.
  { rewrite <-(app_nil_r topics). by rewrite infer_track_skip. }
  rewrite load_track_map_entries. split_and!; [done| |].
  - intros before track r after -> Hr Hafter.
    rewrite foldl_app. cbn [foldl].
    rewrite foldl_insert_other by done. simpl.
    rewrite Hr. apply lookup_insert_eq.
  - intros Hnone. by rewrite foldl_insert_other.
Qed.

Lemma infer_track_fallback_witness :
  infer_track (track_map Examples.cfg) "repo-y" ["python"] = Some "backend"
  ∧ infer_track (track_map Examples.cfg) "REPO-Y" ["python"] = Some "backend"
  ∧ infer_track (track_map Examples.cfg) "repo-z" ["python"] = None.
Proof.
  pose proof (infer_track_fallback
                (Some [("backend", Some ["Repo-Y"]); ("infra", None)])) as H.
  split_and!.
  - destruct (H "repo-y" ["python"]) as (_ & Hin & _); [by repeat constructor|].
    apply (Hin [] "backend" "Repo-Y" []); [reflexivity..|constructor].
  - destruct (H "REPO-Y" ["python"]) as (_ & Hin & _); [by repeat constructor|].
    apply (Hin [] "backend" "Repo-Y" []); [reflexivity..|constructor].
  - destruct (H "repo-z" ["python"]) as (_ & _ & Hout); [by repeat constructor|].
    apply Hout. repeat constructor. simpl. discriminate.
Defined.
End TrackFacts.

(** ** Fetching the commits *)

Lemma commit_pages_conflict P fuel url params commits :
  status_code (get P url params) = 409%Z →
  commit_pages P (S fuel) url params commits = Ok [].
Proof. intros H. simpl. by rewrite H. Qed.

Lemma commit_pages_error P fuel url params commits :
  let status := status_code (get P url params) in
  status ≠ 409%Z → (400 ≤ status < 600)%Z →
  commit_pages P (S fuel) url params commits = Raise (HTTPError status).
Proof.
  intros status Hne Hrange. simpl. fold status.
  destruct (Z.eqb_spec status 409); [done|].
  unfold raise_for_status.
  destruct (Z.leb_spec 400 status); [|lia].
  destruct (Z.ltb_spec status 600); [done|lia].
Qed.

(** With a status that is neither the conflict nor an error status, the
    commits of the page are kept; the loop ends at a page without a next
    link. *)
Lemma commit_pages_last_page P fuel url params commits :
  let r := get P url params in
  status_code r ≠ 409%Z → ¬ (400 ≤ status_code r < 600)%Z →
  Py.truthy (links_next_url r) = false →
  commit_pages P (S fuel) url params commits = Ok (commits ++ json r).
Proof.
  intros r Hne Hrange Hnext. simpl. fold r.
  destruct (Z.eqb_spec (status_code r) 409); [done|].
  unfold raise_for_status.
  destruct (Z.leb_spec 400 (status_code r)), (Z.ltb_spec (status_code r) 600);
    simpl; try lia; by rewrite Hnext.
Qed.

(** An enumeration that fits on one page takes one request. *)
Lemma list_org_repos_single_page cfg P fuel :
  let r := post_graphql P (ORG cfg) None in
  ¬ (400 ≤ gql_status_code r < 600)%Z →
  gql_errors r = None →
  hasNextPage (pageInfo r) = false →
  list_org_repos cfg P (S fuel) = Ok (map repo_of_node (nodes r)).
Proof.
  intros r Hstatus Herrors Hlast.
  unfold list_org_repos. cbn [list_org_repos_from]. unfold gql. fold r.
  unfold raise_for_status.
  destruct (Z.leb_spec 400 (gql_status_code r)),
           (Z.ltb_spec (gql_status_code r) 600); simpl; try lia;
    rewrite Herrors; simpl; fold r; by rewrite Hlast.
Qed.

(** [commit_pages] and [collect] use the provider through [get] only. *)
Lemma commit_pages_ext P P' fuel url params commits :
  get P' = get P →
  commit_pages P' fuel url params commits = commit_pages P fuel url params commits.
Proof.
  intros Hget. revert url params commits.
  induction fuel as [|fuel IH]; intros url params commits; [done|].
  simpl. rewrite Hget.
  destruct (status_code _ =? 409)%Z; [done|].
  destruct (raise_for_status _); simpl; [|done..].
  destruct (negb _); [done|]. apply IH.
Qed.

Lemma collect_ext cfg P P' fuel since repos acc :
  get P' = get P →
  collect cfg P' fuel since repos acc = collect cfg P fuel since repos acc.
Proof.
  intros Hget. revert acc. induction repos as [|r repos IH]; intros acc; [done|].
  simpl. destruct (skipped r); [done|].
  assert (commit_activity P' fuel (Repo.full r) since
          = commit_activity P fuel (Repo.full r) since) as ->.
  { unfold commit_activity.
    destruct (Py.split _ _) as [|? [|? [|]]]; try done.
    by apply commit_pages_ext. }
  destruct (commit_activity _ _ _ _); simpl; [|done..]. apply IH.
Qed.




(** ** Archived and disabled repositories *)

(** C8.  An enumerated repository that is archived or disabled leaves no
    trace in the list of summaries or in the leaderboards: a run over the
    same enumeration without it produces the same list of summaries and the
    same two leaderboards, and the summaries are, in order, those of the
    repositories that are neither archived nor disabled. *)
Theorem skipped_repos_leave_no_trace cfg clock P P' fuel before r after rep :
  Repo.archived r = true ∨ Repo.disabled r = true →
  list_org_repos cfg P fuel = Ok (before ++ r :: after) →
  list_org_repos cfg P' fuel = Ok (before ++ after) →
  get P' = get P →
  main cfg clock P fuel = Ok rep →
  (∃ rep', main cfg clock P' fuel = Ok rep'
           ∧ repos rep' = repos rep
           ∧ leaderboards rep' = leaderboards rep)
  ∧ RepoInfo.full <$> repos rep = Repo.full <$> active (before ++ after)
  ∧ RepoInfo.name <$> repos rep = Repo.name <$> active (before ++ after).
Proof.
  intros Hr Hrepos Hrepos' Hget Hrep.
  assert (skipped r = true) as Hs.
  { unfold skipped. destruct Hr as [-> | ->]; [done|apply orb_true_r]. }
  assert (∀ acc, collect cfg P fuel (since_iso clock) (before ++ r :: after) acc
                 = collect cfg P fuel (since_iso clock) (before ++ after) acc)
    as Hsame.
  { intros acc. rewrite !collect_app. f_equal. cbn [collect]. by rewrite Hs. }
  unfold main in Hrep. rewrite Hrepos in Hrep. cbn -[collect] in Hrep.
  rewrite Hsame in Hrep.
  destruct (collect cfg P _ _ (before ++ after) _) as [acc| |] eqn:Hacc;
    [|done..].
  injection Hrep as <-. split_and!.
  - exists (org_stats cfg clock (before ++ after) acc). split; [|done].
    unfold main. rewrite Hrepos'. cbn -[collect].
    by rewrite (collect_ext _ _ _ _ _ _ _ Hget), Hacc.
  - apply collect_Ok in Hacc as (fetched & Hf & _ & ->). simpl.
    rewrite totals_of_repos, <-Hf. simpl.
    rewrite <-!list_fmap_compose. apply list_fmap_ext.
    intros _ [r' cs] _. apply repo_info_full.
  - apply collect_Ok in Hacc as (fetched & Hf & _ & ->). simpl.
    rewrite totals_of_repos, <-Hf. simpl.
    rewrite <-!list_fmap_compose. apply list_fmap_ext.
    intros _ [r' cs] _. apply repo_info_name.
Qed.

Lemma skipped_repos_leave_no_trace_witness :
  repos Examples.report_AB_archive = repos Examples.report_AB
  ∧ leaderboards Examples.report_AB_archive = leaderboards Examples.report_AB
  ∧ RepoInfo.name <$> repos Examples.report_AB_archive = ["A"; "B"]%string.
Proof.
  destruct (skipped_repos_leave_no_trace Examples.cfg Examples.clock
              Examples.provider_AB_archive Examples.provider_AB 1
              [] (repo_of_node Examples.archive)
              (map repo_of_node Examples.nodes_AB)
              Examples.report_AB_archive)
    as ((rep' & Hrep' & Hrepos & Hboards) & _ & Hnames);
    [by left|vm_compute; reflexivity..|].
  assert (rep' = Examples.report_AB) as ->.
  { assert (main Examples.cfg Examples.clock Examples.provider_AB 1
            = Ok Examples.report_AB) as Hab by (vm_compute; reflexivity).
    congruence. }
  split_and!; [by symmetry|by symmetry|exact Hnames].
Defined.

(** * Further properties *)

(** ** The full name of a repository and the first request *)

Section SplitFacts.
Local Open Scope string_scope.
Local Open Scope list_scope.

Lemma split_nonempty sep s : Py.split sep s ≠ [].
Proof.
  destruct s as [|c s]; [done|]. simpl.
  destruct (Ascii.eqb c sep); [done|]. by destruct (Py.split sep s).
Qed.

(** There is one piece more than there are separators. *)
Lemma split_length sep s : length (Py.split sep s) = S (count_char sep s).
Proof.
  induction s as [|c s IH]; [done|]. simpl.
  destruct (Ascii.eqb c sep); simpl; [by rewrite IH|].
  pose proof (split_nonempty sep s).
  by destruct (Py.split sep s).
Qed.

Lemma concat_cons sep x y ys :
  String.concat sep (x :: y :: ys) = x +:+ sep +:+ String.concat sep (y :: ys).
Proof. reflexivity. Qed.

(** Joining the pieces with the separator gives the text back. *)
Lemma split_join sep s :
  String.concat (String sep "") (Py.split sep s) = s.
Proof.
  induction s as [|c s IH]; [done|]. simpl.
  pose proof (split_nonempty sep s) as Hne.
  destruct (Ascii.eqb_spec c sep) as [->|_].
  - destruct (Py.split sep s) as [|h t]; [done|].
    by rewrite concat_cons, IH.
  - destruct (Py.split sep s) as [|h [|h' t]]; [done|..].
    + simpl in *. by rewrite IH.
    + rewrite concat_cons in *. by rewrite append_cons, IH.
Qed.

Lemma append_assoc (a b c : string) : (a +:+ b) +:+ c = a +:+ (b +:+ c).
Proof. induction a as [|x a IH]; [done|]. by rewrite !append_cons, IH. Qed.

(** A full name with exactly one slash starts the loop at its commits
    URL, with the window and the page size as parameters. *)
Lemma commit_activity_start P fuel repo_full since :
  count_char "/" repo_full = 1 →
  commit_activity P fuel repo_full since
  = commit_pages P fuel (first_url repo_full) (Some (since, 100%Z)) [].
Proof.
  intros Hone. unfold commit_activity.
  pose proof (split_length "/" repo_full) as Hlen.
  pose proof (split_join "/" repo_full) as Hjoin.
  destruct (Py.split "/" repo_full) as [|owner [|name [|]]]; simpl in Hlen; try lia.
  rewrite concat_cons in Hjoin. simpl in Hjoin. unfold commits_url, first_url.
  by rewrite <-Hjoin, !append_assoc.
Qed.

(** X1.  A full name that does not have exactly one slash makes
    [commit_activity] raise the error of the tuple unpacking, whatever the
    provider would answer. *)
Theorem commit_activity_malformed_name P fuel repo_full since :
  count_char "/" repo_full ≠ 1 →
  commit_activity P fuel repo_full since = Raise ValueError.
Proof.
  intros Hne. unfold commit_activity.
  pose proof (split_length "/" repo_full) as Hlen.
  destruct (Py.split "/" repo_full) as [|owner [|name [|]]]; try done.
  simpl in Hlen. lia.
Qed.

Lemma commit_activity_malformed_name_witness :
  commit_activity Examples.provider_AB 1 "orphan" (since_iso Examples.clock)
  = Raise ValueError
  ∧ commit_activity Examples.provider_AB 1 "a/b/c" (since_iso Examples.clock)
    = Raise ValueError.
Proof.
  split; apply commit_activity_malformed_name; vm_compute; lia.
Defined.
End SplitFacts.

(** ** The pages of commits *)

Section PageFacts.
Context (P : Provider).

Lemma commit_pages_step fuel url params commits r :
  get P url params = r → page_ok r → Py.truthy (links_next_url r) = true →
  commit_pages P (S fuel) url params commits
  = commit_pages P fuel (default ""%string (links_next_url r)) None
      (commits ++ json r).
Proof.
  intros <- [Hne Hrange] Hnext. simpl.
  destruct (Z.eqb_spec (status_code (get P url params)) 409); [done|].
  unfold raise_for_status.
  destruct (Z.leb_spec 400 (status_code (get P url params))),
           (Z.ltb_spec (status_code (get P url params)) 600);
    simpl; try lia; by rewrite Hnext.
Qed.

(** Along good pages the loop gathers the commits in order and arrives at
    the last request with one unit of fuel spent per page. *)
Lemma commit_pages_follow pages last fuel url params commits :
  follows_links P url params pages last →
  ∃ url' params',
    get P url' params' = last
    ∧ commit_pages P (length pages + fuel) url params commits
      = commit_pages P fuel url' params' (commits ++ concat (json <$> pages)).
Proof.
  revert url params commits.
  induction pages as [|r pages IH]; intros url params commits;
    cbn [follows_links length Nat.add fmap list_fmap concat].
  - intros <-. exists url, params. by rewrite app_nil_r.
  - intros (Hr & Hok & Hnext & Hrest).
    destruct (IH _ _ (commits ++ json r) Hrest) as (url' & params' & Hlast & Heq).
    exists url', params'. split; [done|].
    rewrite (commit_pages_step _ _ _ _ r) by done.
    by rewrite Heq, <-app_assoc.
Qed.

(** X2.  When the answers to a well-formed full name are good pages
    chained by their next links and the last page has no next link,
    [commit_activity] returns the commits of all pages, in page order; the
    first request goes to the commits URL of the full name with the window
    and the page size, the following ones to the next links without
    parameters. *)
Theorem commit_activity_all_pages fuel repo_full since pages last :
  count_char "/" repo_full = 1 →
  follows_links P (first_url repo_full) (Some (since, 100%Z)) pages last →
  page_ok last →
  Py.truthy (links_next_url last) = false →
  length pages < fuel →
  commit_activity P fuel repo_full since
  = Ok (concat (json <$> pages) ++ json last).
Proof.
  intros Hone Hpages Hok Hend Hfuel. rewrite commit_activity_start by done.
  destruct (commit_pages_follow pages last (fuel - length pages) _ _ [] Hpages)
    as (url' & params' & Hlast & Heq).
  replace (length pages + (fuel - length pages)) with fuel in Heq by lia.
  rewrite Heq. destruct (fuel - length pages) as [|rest] eqn:Hrest; [lia|].
  subst last. destruct Hok. by apply commit_pages_last_page.
Qed.

(** X3.  A conflict answer on any page, also after pages with commits,
    makes [commit_activity] return the empty list: the commits gathered
    from the earlier pages are dropped.  An error status on any page raises
    the HTTP error. *)
Theorem commit_activity_late_failure fuel repo_full since pages last :
  count_char "/" repo_full = 1 →
  follows_links P (first_url repo_full) (Some (since, 100%Z)) pages last →
  length pages < fuel →
  (status_code last = 409%Z →
   commit_activity P fuel repo_full since = Ok [])
  ∧ (status_code last ≠ 409%Z → (400 ≤ status_code last < 600)%Z →
     commit_activity P fuel repo_full since
     = Raise (HTTPError (status_code last))).
Proof.
  intros Hone Hpages Hfuel. rewrite commit_activity_start by done.
  destruct (commit_pages_follow pages last (fuel - length pages) _ _ [] Hpages)
    as (url' & params' & Hlast & Heq).
  replace (length pages + (fuel - length pages)) with fuel in Heq by lia.
  rewrite Heq. destruct (fuel - length pages) as [|rest] eqn:Hrest; [lia|].
  subst last. split.
  - apply commit_pages_conflict.
  - apply commit_pages_error.
Qed.

(** X4.  A good page whose next link is the address it was fetched from,
    without parameters, is fetched again and again: the loop has no result
    for any amount of fuel. *)
Theorem commit_pages_cycle fuel url commits :
  page_ok (get P url None) →
  links_next_url (get P url None) = Some url →
  url ≠ ""%string →
  commit_pages P fuel url None commits = Diverge.
Proof.
  intros Hok Hnext Hurl. revert commits.
  induction fuel as [|fuel IH]; intros commits; [done|].
  rewrite (commit_pages_step _ _ _ _ (get P url None)); [|done..|].
  - rewrite Hnext. apply IH.
  - rewrite Hnext. simpl. by destruct url.
Qed.
End PageFacts.

Lemma commit_activity_all_pages_witness :
  commit_activity (MoreExamples.provider_paged MoreExamples.page2) 2
    "Avalanche-Team1-Africa/A" (since_iso Examples.clock)
  = Ok (json MoreExamples.page1 ++ json MoreExamples.page2).
Proof.
  apply (commit_activity_all_pages
           (MoreExamples.provider_paged MoreExamples.page2) 2
           "Avalanche-Team1-Africa/A" (since_iso Examples.clock)
           [MoreExamples.page1] MoreExamples.page2).
  - reflexivity.
  - by_evaluation.
  - by_evaluation.
  - reflexivity.
  - simpl. lia.
Defined.

Lemma commit_activity_late_failure_witness :
  commit_activity (MoreExamples.provider_paged (Examples.answer 409 [])) 2
    "Avalanche-Team1-Africa/A" (since_iso Examples.clock) = Ok []
  ∧ commit_activity (MoreExamples.provider_paged (Examples.answer 502 [])) 2
      "Avalanche-Team1-Africa/A" (since_iso Examples.clock)
    = Raise (HTTPError 502).
Proof.
  split.
  - apply (commit_activity_late_failure
             (MoreExamples.provider_paged (Examples.answer 409 [])) 2
             "Avalanche-Team1-Africa/A" (since_iso Examples.clock)
             [MoreExamples.page1] (Examples.answer 409 []));
      [reflexivity|by_evaluation|simpl; lia|reflexivity].
  - apply (commit_activity_late_failure
             (MoreExamples.provider_paged (Examples.answer 502 [])) 2
             "Avalanche-Team1-Africa/A" (since_iso Examples.clock)
             [MoreExamples.page1] (Examples.answer 502 []));
      [reflexivity|by_evaluation|simpl; lia|discriminate|simpl; lia].
Defined.

Lemma commit_pages_cycle_witness :
  commit_pages MoreExamples.provider_loop 1000
    (first_url "Avalanche-Team1-Africa/A") None [] = Diverge.
Proof.
  apply commit_pages_cycle.
  - by_evaluation.
  - reflexivity.
  - discriminate.
Defined.

(** ** The pages of repositories *)

Section EnumerationFacts.
Context (P : Provider) (org_login : string).

Lemma gql_accepts cursor r :
  post_graphql P org_login cursor = r → gql_ok r →
  gql P org_login cursor = Ok r.
Proof.
  intros <- [Hstatus Herrors]. unfold gql, raise_for_status.
  destruct (Z.leb_spec 400 (gql_status_code (post_graphql P org_login cursor))),
           (Z.ltb_spec (gql_status_code (post_graphql P org_login cursor)) 600);
    simpl; try lia; by rewrite Herrors.
Qed.

Lemma gql_refuses cursor r e :
  post_graphql P org_login cursor = r → gql_failure r = Some e →
  gql P org_login cursor = Raise e.
Proof.
  intros <-. unfold gql, gql_failure, raise_for_status.
  destruct (_ && _); simpl; [by intros [= <-]|].
  destruct (gql_errors _); simpl; [by intros [= <-]|done].
Qed.

Lemma list_org_repos_follow pages last fuel cursor repos :
  follows_cursors P org_login cursor pages last →
  ∃ cursor',
    post_graphql P org_login cursor' = last
    ∧ list_org_repos_from P org_login (length pages + fuel) cursor repos
      = list_org_repos_from P org_login fuel cursor'
          (repos ++ (repo_of_node <$> concat (nodes <$> pages))).
Proof.
  revert cursor repos.
  induction pages as [|r pages IH]; intros cursor repos;
    cbn [follows_cursors length Nat.add fmap list_fmap concat].
  - intros <-. exists cursor. by rewrite app_nil_r.
  - intros (Hr & Hok & Hnext & Hrest).
    destruct (IH _ (repos ++ map repo_of_node (nodes r)) Hrest)
      as (cursor' & Hlast & Heq).
    exists cursor'. split; [done|].
    cbn [list_org_repos_from]. rewrite (gql_accepts _ r) by done.
    simpl. rewrite Hnext. simpl. rewrite Heq.
    by rewrite fmap_app, <-app_assoc.
Qed.
End EnumerationFacts.

(** X5.  When the answers to the repository query are accepted pages
    chained by their cursors and the last one announces no further page,
    [list_org_repos] returns the repositories of all pages, in page order and
    in the order of each page, archived and disabled ones included. *)
Theorem list_org_repos_all_pages cfg P fuel pages last :
  follows_cursors P (ORG cfg) None pages last →
  gql_ok last →
  hasNextPage (pageInfo last) = false →
  length pages < fuel →
  list_org_repos cfg P fuel
  = Ok (repo_of_node <$> (concat (nodes <$> pages) ++ nodes last)).
Proof.
  intros Hpages Hok Hend Hfuel. unfold list_org_repos.
  destruct (list_org_repos_follow P (ORG cfg) pages last
              (fuel - length pages) None [] Hpages) as (cursor' & Hlast & Heq).
  replace (length pages + (fuel - length pages)) with fuel in Heq by lia.
  rewrite Heq. destruct (fuel - length pages) as [|rest] eqn:Hrest; [lia|].
  cbn [list_org_repos_from]. rewrite (gql_accepts _ _ _ last) by done.
  simpl. rewrite Hend. simpl. by rewrite fmap_app.
Qed.

Lemma list_org_repos_all_pages_witness :
  list_org_repos Examples.cfg
    (MoreExamples.provider_two_pages (Examples.single_page Examples.nodes_AB)) 2
  = Ok (repo_of_node <$> (Examples.archive :: Examples.nodes_AB)).
Proof.
  apply (list_org_repos_all_pages Examples.cfg
           (MoreExamples.provider_two_pages (Examples.single_page Examples.nodes_AB))
           2 [MoreExamples.gql_page1] (Examples.single_page Examples.nodes_AB)).
  - by_evaluation.
  - by_evaluation.
  - reflexivity.
  - simpl. lia.
Defined.

(** X6.  An answer to the repository query that [gql] does not accept,
    on the first page or after accepted pages, ends the run: an error status
    raises the HTTP error, also when the answer carries errors, and an
    answer with errors under another status raises them; [list_org_repos]
    and [main] raise the same, no repository is returned and no report is
    produced. *)
Theorem enumeration_failure_is_fatal cfg clock P fuel pages last e :
  follows_cursors P (ORG cfg) None pages last →
  gql_failure last = Some e →
  length pages < fuel →
  list_org_repos cfg P fuel = Raise e
  ∧ main cfg clock P fuel = Raise e.
Proof.
  intros Hpages Hfail Hfuel.
  assert (list_org_repos cfg P fuel = Raise e) as Hrepos.
  { unfold list_org_repos.
    destruct (list_org_repos_follow P (ORG cfg) pages last
                (fuel - length pages) None [] Hpages) as (cursor' & Hlast & Heq).
    replace (length pages + (fuel - length pages)) with fuel in Heq by lia.
    rewrite Heq. destruct (fuel - length pages) as [|rest] eqn:Hrest; [lia|].
    cbn [list_org_repos_from]. by rewrite (gql_refuses _ _ _ last e). }
  split; [done|]. unfold main. by rewrite Hrepos.
Qed.

Lemma enumeration_failure_is_fatal_witness :
  main Examples.cfg Examples.clock
    (MoreExamples.provider_two_pages MoreExamples.gql_refused) 2
  = Raise (RuntimeError "rate limited").
Proof.
  apply (enumeration_failure_is_fatal Examples.cfg Examples.clock
           (MoreExamples.provider_two_pages MoreExamples.gql_refused) 2
           [MoreExamples.gql_page1] MoreExamples.gql_refused).
  - by_evaluation.
  - reflexivity.
  - simpl. lia.
Defined.

(** ** What the counters hold *)

Section TallyFacts.
Implicit Types (d : Counter) (k who : option string) (v : nat).

Lemma tally_cons k k' v d :
  tally k ((k', v) :: d) = (if decide (k' = k) then v else 0) + tally k d.
Proof. unfold tally, Counter. rewrite filter_cons. simpl. by case_decide. Qed.

Lemma tally_perm k d1 d2 : d1 ≡ₚ d2 → tally k d1 = tally k d2.
Proof. intros H. unfold tally, Counter. apply sum_list_perm. by rewrite H. Qed.

(** [d[k'] += v] adds [v] to the count of [k'] and to no other. *)
Lemma tally_dict_add k k' v d :
  tally k (dict_add k' v d) = tally k d + (if decide (k' = k) then v else 0).
Proof.
  induction d as [|[k0 n] d IH]; cbn [dict_add].
  - rewrite tally_cons. unfold tally. simpl. lia.
  - destruct (decide (k' = k0)) as [->|Hne]; rewrite !tally_cons.
    + repeat case_decide; lia.
    + rewrite IH. lia.
Qed.

Lemma tally_notin k d : k ∉ d.*1 → tally k d = 0.
Proof.
  induction d as [|[k0 n] d IH]; [done|].
  rewrite fmap_cons, not_elem_of_cons, tally_cons. simpl.
  intros [Hne Hd]. rewrite decide_False by done. by rewrite IH.
Qed.

(** A counter without repeated keys holds for each key the count of its
    entry. *)
Lemma tally_entry k v d : NoDup d.*1 → (k, v) ∈ d → tally k d = v.
Proof.
  induction d as [|[k0 n] d IH]; [by intros _ ?%elem_of_nil|].
  rewrite fmap_cons, NoDup_cons, tally_cons. simpl.
  intros [Hk0 Hd] [[= -> ->]|Hin]%elem_of_cons.
  - rewrite decide_True by done. rewrite tally_notin by done. lia.
  - rewrite decide_False, IH by (try done; intros ->; apply Hk0;
      apply list_elem_of_fmap; by exists (k, v)). done.
Qed.

Lemma tally_count_commits_from commits d last k :
  tally k (foldl count_commit (d, last) commits).1
  = tally k d + length (commits_by k commits).
Proof.
  revert d last. unfold commits_by.
  induction commits as [|c cs IH]; intros d last; cbn [foldl count_commit].
  - simpl. lia.
  - rewrite IH, tally_dict_add, filter_cons.
    case_decide; simpl; lia.
Qed.

Lemma tally_count_commits commits k :
  tally k (count_commits commits).1 = length (commits_by k commits).
Proof. unfold count_commits. by rewrite tally_count_commits_from. Qed.

Lemma tally_add_totals by_author totals k :
  tally k (add_totals by_author totals) = tally k totals + tally k by_author.
Proof.
  revert totals. unfold add_totals.
  induction by_author as [|[k0 v] b IH]; intros totals; cbn [foldl].
  - unfold tally at 3. simpl. lia.
  - rewrite IH, tally_dict_add, tally_cons. simpl. lia.
Qed.

Lemma commits_of_contributors who d :
  commits_of who (contributor_of <$> d) = tally who d.
Proof.
  unfold commits_of, tally, Counter. induction d as [|[k v] d IH]; [done|].
  rewrite fmap_cons, !filter_cons. simpl.
  case_decide; csimpl; by rewrite IH.
Qed.

Lemma commits_of_repo_info cfg r commits who :
  commits_of who (RepoInfo.contributors (repo_info cfg r commits))
  = length (commits_by who commits).
Proof.
  rewrite repo_info_contributors, commits_of_contributors.
  rewrite (tally_perm _ _ (count_commits commits).1)
    by apply sorted_reverse_perm.
  apply tally_count_commits.
Qed.

Lemma tally_totals_of cfg fetched acc k :
  tally k (contributor_totals (totals_of cfg fetched acc))
  = tally k (contributor_totals acc)
    + sum_list ((λ rc, length (commits_by k rc.2)) <$> fetched).
Proof.
  revert acc. unfold totals_of.
  induction fetched as [|[r cs] f IH]; intros acc; cbn [foldl].
  - simpl. lia.
  - rewrite IH. csimpl. rewrite tally_add_totals, tally_count_commits. lia.
Qed.
End TallyFacts.

(** ** The contributor list of a summary *)

Lemma descending_fmap {A B : Type} (f : A → B) (key : B → nat) (l : list A) :
  descending (key ∘ f) l → descending key (f <$> l).
Proof.
  intros Hl i x y. rewrite !list_lookup_fmap.
  destruct (l !! i) as [a|] eqn:Ha; [|done].
  destruct (l !! S i) as [b|] eqn:Hb; [|done].
  intros [= <-] [= <-]. by apply (Hl i a b).
Qed.

(** Far entries of a descending list are ordered too. *)
Lemma descending_le {A : Type} (key : A → nat) (l : list A) i j x y :
  descending key l → l !! i = Some x → l !! (i + j) = Some y → key y ≤ key x.
Proof.
  intros Hl Hx. revert y. induction j as [|j IH]; intros y Hy.
  - rewrite Nat.add_0_r in Hy. by assert (x = y) as -> by congruence.
  - destruct (l !! (i + j)) as [z|] eqn:Hz.
    + etrans; [|by apply IH]. apply (Hl (i + j)); [done|].
      by rewrite <-Nat.add_succ_r.
    + apply lookup_ge_None in Hz. apply lookup_lt_Some in Hy. lia.
Qed.

(** What a cut of a descending list leaves out is not above what it
    keeps. *)
Lemma descending_take_top {A : Type} (key : A → nat) (l : list A) n x y :
  descending key l → x ∈ take n l → y ∈ l → y ∉ take n l → key y ≤ key x.
Proof.
  intros Hl (i & Hx & Hi)%elem_of_take Hy Hout.
  rewrite <-(take_drop n l), elem_of_app in Hy.
  destruct Hy as [?|(j & Hj)%list_elem_of_lookup]; [done|].
  rewrite lookup_drop in Hj.
  apply (descending_le key l i (n + j - i)); [done..|].
  by replace (i + (n + j - i)) with (n + j) by lia.
Qed.

(** X7.  The contributor list of a summary has one entry for each author
    of a fetched commit and for no one else; the entry of an author counts
    exactly the fetched commits attributed to that author, which is at least
    one; and the list is in descending order of these counts. *)
Theorem contributors_count_the_commits cfg r commits :
  let contributors := RepoInfo.contributors (repo_info cfg r commits) in
  NoDup (Contributor.login <$> contributors)
  ∧ (∀ who, who ∈ Contributor.login <$> contributors
            ↔ who ∈ author_of <$> commits)
  ∧ (∀ c, c ∈ contributors →
          Contributor.commits c
          = length (commits_by (Contributor.login c) commits)
          ∧ 0 < Contributor.commits c)
  ∧ descending Contributor.commits contributors.
Proof.
  intros contributors. subst contributors.
  rewrite repo_info_contributors.
  set (by_author := (count_commits commits).1).
  assert (Py.sorted_reverse snd by_author ≡ₚ by_author) as Hperm
    by apply sorted_reverse_perm.
  rewrite contributor_of_login. split_and!.
  - rewrite Hperm. apply count_commits_NoDup.
  - intros who. rewrite Hperm. apply count_commits_elem.
  - intros c ([k v] & -> & Hkv)%list_elem_of_fmap. rewrite Hperm in Hkv. simpl.
    split.
    + rewrite <-tally_count_commits. symmetry.
      by apply tally_entry; [apply count_commits_NoDup|].
    + pose proof (count_commits_pos commits) as Hpos.
      rewrite Forall_forall in Hpos. by apply (Hpos (k, v)).
  - apply descending_fmap.
    apply (sorted_reverse_descending (snd : option string * nat → nat)).
Qed.

(** ** The leaderboards and the summaries *)

(** X8.  The contributor leaderboard names no login twice, and the count
    of each of its entries is the sum, over the summaries of the report, of
    the commits that the summary's contributor list gives to that login. *)
Theorem leaderboard_entries_add_up cfg clock P fuel rep :
  main cfg clock P fuel = Ok rep →
  NoDup (Contributor.login <$> top_contributors_30d (leaderboards rep))
  ∧ ∀ e, e ∈ top_contributors_30d (leaderboards rep) →
         Contributor.commits e
         = sum_list ((λ info, commits_of (Contributor.login e)
                                (RepoInfo.contributors info)) <$> repos rep).
Proof.
  intros (enumerated & fetched & _ & _ & _ & ->)%main_Ok. simpl.
  set (ct := contributor_totals (totals_of cfg fetched no_totals)).
  assert (NoDup ct.*1) as Hnodup by (apply totals_of_NoDup; constructor).
  assert (Py.sorted_reverse Contributor.commits (map contributor_of ct)
          ≡ₚ contributor_of <$> ct) as Hperm by apply sorted_reverse_perm.
  split.
  - rewrite fmap_take. eapply sublist_NoDup; [|apply sublist_take].
    by rewrite Hperm, contributor_of_login.
  - intros e He%subseteq_take. rewrite Hperm in He.
    apply list_elem_of_fmap in He as ([k v] & -> & Hkv). simpl.
    rewrite <-(tally_entry k v ct) by done. unfold ct.
    rewrite tally_totals_of, totals_of_repos. simpl.
    rewrite <-list_fmap_compose. f_equal. apply list_fmap_ext.
    intros _ [r cs] _. simpl. by rewrite commits_of_repo_info.
Qed.

Lemma leaderboard_entries_add_up_witness :
  NoDup (Contributor.login
           <$> top_contributors_30d (leaderboards Examples.report_many))
  ∧ sum_list ((λ info, commits_of (Some "a01"%string)
                         (RepoInfo.contributors info))
                <$> repos Examples.report_many) = 12.
Proof.
  destruct (leaderboard_entries_add_up Examples.cfg Examples.clock
              Examples.provider_many 1 Examples.report_many
              ltac:(vm_compute; reflexivity)) as [Hnodup Hsum].
  split; [exact Hnodup|].
  symmetry.
  apply (Hsum {| Contributor.login := Some "a01"%string;
                 Contributor.commits := 12 |}).
  vm_compute. left.
Defined.

Lemma repo_entries_of_summaries cfg fetched :
  map repo_entry_of (repo_activity (totals_of cfg fetched no_totals))
  = entry_of_info <$> org_stats_repos (totals_of cfg fetched no_totals).
Proof.
  rewrite totals_of_activity, totals_of_repos. simpl.
  rewrite map_map, <-list_fmap_compose. apply list_fmap_ext.
  intros _ [r cs] _. unfold repo_entry_of, entry_of_info. simpl.
  by rewrite repo_info_name, repo_info_commits_count.
Qed.

(** X9.  The repository leaderboard is determined by the list of
    summaries of the report: it is the first ten of the summaries' names and
    commit counts, sorted in descending order of the counts. *)
Theorem top_repos_from_summaries cfg clock P fuel rep :
  main cfg clock P fuel = Ok rep →
  top_repos_30d (leaderboards rep)
  = take 10 (Py.sorted_reverse RepoEntry.commits (entry_of_info <$> repos rep)).
Proof.
  intros (enumerated & fetched & _ & _ & _ & ->)%main_Ok. simpl.
  by rewrite repo_entries_of_summaries.
Qed.

Lemma top_repos_from_summaries_witness :
  top_repos_30d (leaderboards Examples.report_AB)
  = take 10 (Py.sorted_reverse RepoEntry.commits
               (entry_of_info <$> repos Examples.report_AB)).
Proof.
  apply (top_repos_from_summaries Examples.cfg Examples.clock
           Examples.provider_AB 1).
  vm_compute. reflexivity.
Defined.

(** X10.  Below their caps the leaderboards lose nothing: the repository
    leaderboard has as many entries as there are summaries, up to 10, and
    the contributor leaderboard as many as the run has different
    contributors, up to 15. *)
Theorem leaderboards_full_below_cap cfg clock P fuel rep :
  main cfg clock P fuel = Ok rep →
  length (top_repos_30d (leaderboards rep)) = 10 `min` length (repos rep)
  ∧ length (top_contributors_30d (leaderboards rep))
    = 15 `min` distinct_contributors rep.
Proof.
  intros (enumerated & fetched & _ & _ & _ & ->)%main_Ok.
  rewrite distinct_contributors_totals. simpl.
  rewrite !length_take, !sorted_reverse_length, !length_map.
  by rewrite totals_of_activity, totals_of_repos, !length_app, !length_map.
Qed.

Lemma leaderboards_full_below_cap_witness :
  length (top_repos_30d (leaderboards Examples.report_AB)) = 2
  ∧ length (top_contributors_30d (leaderboards Examples.report_AB)) = 2.
Proof.
  apply (leaderboards_full_below_cap Examples.cfg Examples.clock
           Examples.provider_AB 1).
  vm_compute. reflexivity.
Defined.

(** X11.  The leaderboards keep the highest counts.  A summary whose name
    and count are not on the repository leaderboard has at most the count of
    every entry that is; a contributor of the run who is not on the
    contributor leaderboard has, summed over the summaries, at most the
    commits of every entry that is. *)
Theorem leaderboards_keep_the_top cfg clock P fuel rep :
  main cfg clock P fuel = Ok rep →
  (∀ e info,
     e ∈ top_repos_30d (leaderboards rep) →
     info ∈ repos rep →
     entry_of_info info ∉ top_repos_30d (leaderboards rep) →
     RepoInfo.commits_count info ≤ RepoEntry.commits e)
  ∧ (∀ e who,
       e ∈ top_contributors_30d (leaderboards rep) →
       who ∈ all_logins rep →
       who ∉ Contributor.login <$> top_contributors_30d (leaderboards rep) →
       sum_list ((λ info, commits_of who (RepoInfo.contributors info))
                   <$> repos rep)
       ≤ Contributor.commits e).
Proof.
  intros (enumerated & fetched & _ & _ & _ & ->)%main_Ok. split.
  - simpl. rewrite repo_entries_of_summaries.
    intros e info He Hinfo Hout.
    eapply (descending_take_top RepoEntry.commits _ 10 e (entry_of_info info));
      [apply sorted_reverse_descending|done| |done].
    rewrite sorted_reverse_perm. apply list_elem_of_fmap. by exists info.
  - intros e who He Hwho Hout.
    apply all_logins_totals in Hwho. simpl in *.
    set (ct := contributor_totals (totals_of cfg fetched no_totals)) in *.
    apply list_elem_of_fmap in Hwho as ([k v] & -> & Hkv). simpl in *.
    assert (sum_list ((λ info, commits_of k (RepoInfo.contributors info))
                        <$> org_stats_repos (totals_of cfg fetched no_totals))
            = v) as ->.
    { rewrite <-(tally_entry k v ct); [|apply totals_of_NoDup; constructor|done].
      unfold ct. rewrite tally_totals_of, totals_of_repos. simpl.
      rewrite <-list_fmap_compose. f_equal. apply list_fmap_ext.
      intros _ [r cs] _. simpl. by rewrite commits_of_repo_info. }
    eapply (descending_take_top Contributor.commits _ 15 e (contributor_of (k, v)));
      [apply sorted_reverse_descending|done| |].
    + rewrite sorted_reverse_perm. apply list_elem_of_fmap. by exists (k, v).
    + intros Hin. apply Hout. apply list_elem_of_fmap.
      by exists (contributor_of (k, v)).
Qed.

Lemma leaderboards_keep_the_top_witness :
  sum_list ((λ info, commits_of (Some "a16"%string) (RepoInfo.contributors info))
              <$> repos Examples.report_many)
  ≤ 12.
Proof.
  destruct (leaderboards_keep_the_top Examples.cfg Examples.clock
              Examples.provider_many 1 Examples.report_many
              ltac:(vm_compute; reflexivity)) as [_ Htop].
  apply (Htop {| Contributor.login := Some "a01"%string;
                 Contributor.commits := 12 |} (Some "a16"%string)).
  - vm_compute. left.
  - vm_compute. do 15 right. left.
  - vm_compute. intros Hin.
    repeat (apply elem_of_cons in Hin as [Hin|Hin]; [discriminate Hin|]).
    by apply elem_of_nil in Hin.
Defined.

(** ** The date of the last commit *)

Section DateFacts.
Local Open Scope string_scope.
Local Open Scope list_scope.

Lemma le_empty s : String.le "" s.
Proof. by destruct s. Qed.

Lemma le_empty_inv s : String.le s "" → s = "".
Proof. intros H. apply (anti_symm String.le); [done|apply le_empty]. Qed.

Lemma ltb_le a b : String.ltb a b = true → String.le a b.
Proof.
  unfold String.le, String.ltb, String.leb. by destruct (String.compare a b).
Qed.

Lemma not_ltb_le a b : String.ltb a b = false → String.le b a.
Proof.
  unfold String.le, String.ltb, String.leb. rewrite (String.compare_antisym a b).
  by destruct (String.compare b a).
Qed.

Lemma latest_of_step seen last dt :
  latest_of seen last →
  latest_of (seen ++ [dt])
    (if negb (Py.truthy last) || String.ltb (default "" last) dt
     then Some dt else last).
Proof.
  assert (∀ m, (∀ x, x ∈ seen → String.le x m) → String.le m dt →
               latest_of (seen ++ [dt]) (Some dt)) as Hnew.
  { intros m Hm Hdt. split; [set_solver|].
    intros x [Hx| ->%list_elem_of_singleton]%elem_of_app; [|done].
    by trans m; [apply Hm|]. }
  destruct last as [m|]; simpl.
  - intros [Hin Hmax]. destruct (String.eqb_spec m "") as [->|Hm]; simpl.
    + apply (Hnew ""); [done|apply le_empty].
    + destruct (String.ltb m dt) eqn:Hlt.
      * apply (Hnew m); [done|by apply ltb_le].
      * split; [set_solver|].
        intros x [Hx| ->%list_elem_of_singleton]%elem_of_app; [by apply Hmax|].
        by apply not_ltb_le.
  - intros ->. split; [set_solver|]. by intros x ->%list_elem_of_singleton.
Qed.

Lemma count_commits_from_latest commits d last seen :
  latest_of seen last →
  latest_of (seen ++ (commit_author_date <$> commits))
    (foldl count_commit (d, last) commits).2.
Proof.
  revert d last seen.
  induction commits as [|c cs IH]; intros d last seen Hlast.
  - by rewrite app_nil_r.
  - cbn [foldl count_commit fmap list_fmap].
    rewrite cons_middle, (assoc_L (++)). by apply IH, latest_of_step.
Qed.
End DateFacts.

(** X12.  When a fetched commit has a non-empty date, [last_commit_at] of
    the summary is the latest date among the fetched commits, in the order
    of text comparison; the last-pushed timestamp of the repository is not
    used. *)
Theorem last_commit_at_is_latest cfg r commits c0 :
  c0 ∈ commits →
  commit_author_date c0 ≠ ""%string →
  ∃ d, RepoInfo.last_commit_at (repo_info cfg r commits) = Some d
       ∧ d ∈ commit_author_date <$> commits
       ∧ ∀ c, c ∈ commits → String.le (commit_author_date c) d.
Proof.
  intros Hc0 Hdate.
  pose proof (count_commits_from_latest commits [] None [] eq_refl) as Hlast.
  rewrite app_nil_l in Hlast.
  change (foldl count_commit ([], None) commits)
    with (count_commits commits) in Hlast.
  rewrite repo_info_last_commit_at. revert Hlast.
  destruct (count_commits commits).2 as [m|]; unfold latest_of; intros Hlast.
  - destruct Hlast as [Hin Hmax]. exists m.
    assert (m ≠ ""%string) as Hm.
    { intros ->. apply Hdate, le_empty_inv, Hmax.
      apply list_elem_of_fmap. by exists c0. }
    split_and!; [|done|].
    + unfold Py.or. simpl.
      destruct (String.eqb_spec m ""); [done|]. simpl.
      by destruct (String.eqb_spec m "").
    + intros c Hc. apply Hmax, list_elem_of_fmap. by exists c.
  - apply fmap_nil_inv in Hlast. subst. by apply elem_of_nil in Hc0.
Qed.

Lemma last_commit_at_is_latest_witness :
  ∃ d, RepoInfo.last_commit_at
         (repo_info Examples.cfg (repo_of_node Examples.archive)
            Examples.commits_A) = Some d
       ∧ String.le "2025-09-03T10:00:00Z" d.
Proof.
  destruct (last_commit_at_is_latest Examples.cfg
              (repo_of_node Examples.archive) Examples.commits_A
              (Examples.commit_by "alice" "2025-09-03T10:00:00Z"))
    as (d & Hd & _ & Hmax).
  - vm_compute. do 2 right. left.
  - discriminate.
  - exists d. split; [exact Hd|].
    apply (Hmax (Examples.commit_by "alice" "2025-09-03T10:00:00Z")).
    vm_compute. do 2 right. left.
Defined.

(** ** More on the track classifier *)

(** X13.  A topic with the prefix decides the track: when one of the
    topics starts with the prefix, [infer_track] answers a track that depends
    neither on the static mapping nor on the name of the repository. *)
Theorem infer_track_topic_first tm tm' repo_name repo_name' topics :
  Exists (λ t, Py.startswith t "track-" = true) topics →
  is_Some (infer_track tm repo_name topics)
  ∧ infer_track tm repo_name topics = infer_track tm' repo_name' topics.
Proof.
  induction 1 as [t topics Ht|t topics _ IH]; cbn [infer_track].
  - by rewrite Ht.
  - destruct (Py.startswith t "track-"); [done|apply IH].
Qed.

Lemma infer_track_topic_first_witness :
  infer_track (track_map Examples.cfg) "Repo-Y" ["python"; "track-frontend"]%string
  = infer_track ∅ "other" ["python"; "track-frontend"]%string.
Proof.
  apply infer_track_topic_first. right. left. reflexivity.
Defined.

Lemma foldl_insert_lookup (entries : list (string * string))
    (tm : gmap string string) (k track : string) :
  foldl (λ tm e, <[Py.lower e.2 := e.1]> tm) tm entries !! k = Some track →
  tm !! k = Some track
  ∨ ∃ r, (track, r) ∈ entries ∧ Py.lower r = k.
Proof.
  revert tm. induction entries as [|[t r] entries IH]; intros tm; cbn [foldl].
  - by left.
  - intros [Hins|(r' & Hin & Hr')]%IH.
    + simpl in Hins. apply lookup_insert_Some in Hins as [[Hk <-]|[_ Htm]].
      * right. exists r. split; [left|done].
      * by left.
    + right. exists r'. split; [by right|done].
Qed.

(** X14.  The fallback invents no track: when no topic starts with the
    prefix and [infer_track] answers a track, the track file lists, under
    that track, a name that equals the repository name up to case. *)
Theorem infer_track_fallback_sound file repo_name topics track :
  Forall (λ t, Py.startswith t "track-" = false) topics →
  infer_track (load_track_map file) repo_name topics = Some track →
  ∃ r, (track, r) ∈ track_entries file ∧ Py.lower r = Py.lower repo_name.
Proof.
  intros Htopics.
  rewrite <-(app_nil_r topics), infer_track_skip by done. cbn [infer_track].
  rewrite load_track_map_entries.
  intros [Hempty|Hentry]%foldl_insert_lookup; [|done].
  by rewrite lookup_empty in Hempty.
Qed.

Lemma infer_track_fallback_sound_witness :
  ∃ r, ("backend"%string, r)
       ∈ track_entries (Some [("backend", Some ["Repo-Y"]); ("infra", None)]%string)
       ∧ Py.lower r = Py.lower "REPO-y".
Proof.
  apply (infer_track_fallback_sound _ "REPO-y"%string ["python"%string]).
  - by repeat constructor.
  - vm_compute. reflexivity.
Defined.

(** ** Runs without active repositories *)

(** [list_org_repos] uses the provider through [post_graphql] only. *)
Lemma list_org_repos_ext cfg P P' fuel :
  post_graphql P' = post_graphql P →
  list_org_repos cfg P' fuel = list_org_repos cfg P fuel.
Proof.
  intros Hpost. unfold list_org_repos.
  generalize (@None string) (@nil Repo.t).
  induction fuel as [|n IH]; intros cursor repos; [done|].
  cbn [list_org_repos_from]. unfold gql. rewrite Hpost.
  destruct (raise_for_status _); simpl; try done.
  destruct (gql_errors _); simpl; try done.
  destruct (negb _); [done|]. apply IH.
Qed.

(** The loop passes over archived and disabled repositories without a
    request. *)
Lemma collect_all_skipped cfg P fuel since repos acc :
  Forall (λ r, Repo.archived r = true ∨ Repo.disabled r = true) repos →
  collect cfg P fuel since repos acc = Ok acc.
Proof.
  induction 1 as [|r rs Hr _ IH]; [done|].
  cbn [collect]. unfold skipped.
  by destruct Hr as [-> | ->]; rewrite ?orb_true_r.
Qed.

(** X15.  When every enumerated repository is archived or disabled, and
    so also when the organisation has no repository, the run makes no commit
    request and produces a report with an empty list of summaries and two
    empty leaderboards, whose [repos_total] is still the number of
    enumerated repositories. *)
Theorem nothing_active_empty_report cfg clock P fuel enumerated :
  list_org_repos cfg P fuel = Ok enumerated →
  Forall (λ r, Repo.archived r = true ∨ Repo.disabled r = true) enumerated →
  ∃ rep, main cfg clock P fuel = Ok rep
         ∧ (∀ P', post_graphql P' = post_graphql P →
                  main cfg clock P' fuel = Ok rep)
         ∧ repos_total rep = length enumerated
         ∧ repos rep = []
         ∧ top_repos_30d (leaderboards rep) = []
         ∧ top_contributors_30d (leaderboards rep) = [].
Proof.
  intros Hrepos Hskipped.
  assert (∀ P', collect cfg P' fuel (since_iso clock) enumerated no_totals
                = Ok no_totals) as Hacc.
  { intros P'. by apply collect_all_skipped. }
  exists (org_stats cfg clock enumerated no_totals). split_and!; try done.
  - unfold main. rewrite Hrepos. cbn -[collect]. by rewrite Hacc.
  - intros P' Hpost. unfold main.
    rewrite (list_org_repos_ext cfg P P') by done.
    rewrite Hrepos. cbn -[collect]. by rewrite Hacc.
Qed.

Lemma nothing_active_empty_report_witness :
  ∃ rep, main Examples.cfg Examples.clock MoreExamples.provider_retired 1 = Ok rep
         ∧ repos_total rep = 1
         ∧ repos rep = [].
Proof.
  destruct (nothing_active_empty_report Examples.cfg Examples.clock
              MoreExamples.provider_retired 1 [repo_of_node Examples.archive])
    as (rep & Hrep & _ & Htotal & Hnone & _).
  - vm_compute. reflexivity.
  - constructor; [by left|constructor].
  - exists rep. split_and!; [exact Hrep|exact Htotal|exact Hnone].
Defined.

(** ** The summaries and the repositories *)

Lemma repo_info_topics cfg r cs :
  RepoInfo.topics (repo_info cfg r cs) = Repo.topics r.
Proof. unfold repo_info. by destruct (count_commits cs). Qed.

Lemma repo_info_track cfg r cs :
  RepoInfo.track (repo_info cfg r cs)
  = infer_track (track_map cfg) (Repo.name r) (Repo.topics r).
Proof. unfold repo_info. by destruct (count_commits cs). Qed.

(** X16.  The summaries of the report stand, one for one and in order,
    for the enumerated repositories that are neither archived nor disabled:
    each carries the name, the full name and the topics of its repository,
    the track inferred from that name and those topics, and as
    [commits_count] the number of commits that [commit_activity] returns for
    the repository. *)
Theorem summaries_follow_repositories cfg clock P fuel enumerated rep :
  list_org_repos cfg P fuel = Ok enumerated →
  main cfg clock P fuel = Ok rep →
  Forall2 (λ r info,
             RepoInfo.name info = Repo.name r
             ∧ RepoInfo.full info = Repo.full r
             ∧ RepoInfo.topics info = Repo.topics r
             ∧ RepoInfo.track info
               = infer_track (track_map cfg) (Repo.name r) (Repo.topics r)
             ∧ ∃ commits,
                 commit_activity P fuel (Repo.full r) (since_iso clock)
                 = Ok commits
                 ∧ RepoInfo.commits_count info = length commits)
          (active enumerated) (repos rep).
Proof.
  intros Hrepos (enumerated' & fetched & Hrepos' & Hf & Hok & ->)%main_Ok.
  assert (enumerated' = enumerated) as -> by congruence. simpl.
  rewrite totals_of_repos, <-Hf. simpl.
  apply Forall2_fmap, Forall_Forall2_diag.
  eapply Forall_impl; [exact Hok|].
  intros [r cs] Hrc. simpl in *.
  rewrite repo_info_name, repo_info_full, repo_info_topics, repo_info_track.
  split_and!; [done..|]. exists cs. by rewrite repo_info_commits_count.
Qed.

Lemma summaries_follow_repositories_witness :
  Forall2 (λ r info,
             RepoInfo.name info = Repo.name r
             ∧ RepoInfo.full info = Repo.full r
             ∧ RepoInfo.topics info = Repo.topics r
             ∧ RepoInfo.track info
               = infer_track (track_map Examples.cfg) (Repo.name r) (Repo.topics r)
             ∧ ∃ commits,
                 commit_activity Examples.provider_AB_archive 1 (Repo.full r)
                   (since_iso Examples.clock) = Ok commits
                 ∧ RepoInfo.commits_count info = length commits)
          (active (repo_of_node <$> (Examples.archive :: Examples.nodes_AB)))
          (repos Examples.report_AB_archive).
Proof.
  apply (summaries_follow_repositories Examples.cfg Examples.clock
           Examples.provider_AB_archive 1
           (repo_of_node <$> (Examples.archive :: Examples.nodes_AB))
           Examples.report_AB_archive);
    vm_compute; reflexivity.
Defined.

(** ** The first failing repository *)

(** X17.  The first repository, among those neither archived nor
    disabled, for which [commit_activity] raises decides the run: when the
    fetches for the repositories before it succeed, [main] raises the same
    error, whatever the provider would answer for the repositories after
    it. *)
Theorem first_fetch_failure_is_fatal cfg clock P fuel before r after fetched e :
  list_org_repos cfg P fuel = Ok (before ++ r :: after) →
  fetched.*1 = active before →
  fetched_from P fuel (since_iso clock) fetched →
  Repo.archived r = false → Repo.disabled r = false →
  commit_activity P fuel (Repo.full r) (since_iso clock) = Raise e →
  main cfg clock P fuel = Raise e.
Proof.
  intros Hrepos Hf Hok Ha Hd He. unfold main. rewrite Hrepos.
  cbn -[collect]. rewrite collect_app.
  assert (collect cfg P fuel (since_iso clock) before no_totals
          = Ok (totals_of cfg fetched no_totals)) as ->.
  { apply collect_Ok. by exists fetched. }
  cbn [mbind Result_bind collect]. unfold skipped. rewrite Ha, Hd. simpl.
  by rewrite He.
Qed.

Lemma first_fetch_failure_is_fatal_witness :
  main Examples.cfg Examples.clock Examples.provider_failing 1
  = Raise (HTTPError 500).
Proof.
  apply (first_fetch_failure_is_fatal Examples.cfg Examples.clock
           Examples.provider_failing 1
           [repo_of_node (Examples.node "A" false
                            (Some "2025-09-03T10:00:00Z"%string)
                            ["track-backend"%string])]
           (repo_of_node (Examples.node "B" false None []))
           []
           [(repo_of_node (Examples.node "A" false
                             (Some "2025-09-03T10:00:00Z"%string)
                             ["track-backend"%string]),
             Examples.commits_A)]);
    try (vm_compute; reflexivity).
  repeat constructor.
Defined.

(** ** The access token *)

(** X18.  The script starts only with a non-empty access token: the token
    is the value of [GH_TOKEN] when that is set and not empty, and otherwise
    the value of [GITHUB_TOKEN]; a variable set to the empty text counts as
    not set. *)
Theorem token_present_iff (env : gmap string string) :
  token_missing env = false
  ↔ ∃ token,
      token ≠ ""%string
      ∧ GITHUB_TOKEN env = Some token
      ∧ (env !! "GH_TOKEN"%string = Some token
         ∨ ((env !! "GH_TOKEN"%string = None
             ∨ env !! "GH_TOKEN"%string = Some ""%string)
            ∧ env !! "GITHUB_TOKEN"%string = Some token)).
Proof.
  unfold token_missing, GITHUB_TOKEN, Py.or, Py.truthy.
  destruct (env !! "GH_TOKEN"%string) as [gh|] eqn:Hgh; simpl.
  - destruct (String.eqb_spec gh "") as [->|Hne]; simpl.
    + destruct (env !! "GITHUB_TOKEN"%string) as [t|]; simpl.
      * destruct (String.eqb_spec t "") as [->|Ht]; simpl.
        -- split; [done|]. by intros (? & ? & [= <-] & _).
        -- split; [|done]. intros _. exists t. naive_solver.
      * split; [done|]. by intros (? & ? & [=] & _).
    + destruct (String.eqb_spec gh ""); [done|]. simpl.
      split; [|done]. intros _. exists gh. naive_solver.
  - destruct (env !! "GITHUB_TOKEN"%string) as [t|]; simpl.
    + destruct (String.eqb_spec t "") as [->|Ht]; simpl.
      * split; [done|]. by intros (? & ? & [= <-] & _).
      * split; [|done]. intros _. exists t. naive_solver.
    + split; [done|]. by intros (? & ? & [=] & _).
Qed.
